(** * Height-map compensation: probe grid, bilinear interpolation and the
      G-code transform engine

    Shallow embedding of
      - [features/HeightMap/definitions.ts]            (the records),
      - [features/HeightMap/utils/interpolation.ts]    (grid and interpolation),
      - [features/HeightMap/utils/gcodeTransformer.ts] (the line rewriter
        and the bounds validation),
      - [features/HeightMap/components/GridVisualizer.tsx] (the colour
        scale of the grid view).

    Conventions of the embedding.
      - A JavaScript [number] is an exact rational [Q]: arithmetic is the
        code's arithmetic without binary rounding error and without NaN or
        the infinities.  [===] on numbers is [Qeq_bool], [<=] is [Qle_bool].
        The running extremes of [validateGcodeBounds], which start at the
        infinities, are the exception: they are of type [ExtNumber].
      - [Math.sqrt] is kept symbolic: a planar distance is carried as its
        square, and the two places that consume a distance (the comparison
        with the segment length and [Math.ceil (dist / segmentLength)]) are
        computed exactly from the square.
      - A division whose divisor is [0] yields an infinity in JavaScript.
        The functions where this can happen ([calculateProbeGrid] with a
        zero spacing, [segmentLine] with a zero segment length) and their
        callers return [option]: [None] stands for "the call does not
        return a value" (an array or a loop of unbounded length).
      - Program text is a [string] of ASCII characters; arrays and strings
        have no size limit. *)

From Stdlib Require Import ZArith QArith Qround Qabs Qminmax Lia Lqa.
From Stdlib Require Import List Sorted Bool String Ascii DecimalString.
From Stdlib Require DecimalPos DecimalN.
Import ListNotations.

Open Scope Q_scope.

(* ================================================================== *)
(** ** Numbers *)

(** [a >= b], [a > b], [a < b] and [a !== b] on numbers. *)
Definition geb (a b : Q) : bool := Qle_bool b a.
Definition gtb (a b : Q) : bool := negb (Qle_bool a b).
Definition ltb (a b : Q) : bool := negb (Qle_bool b a).
Definition neqb (a b : Q) : bool := negb (Qeq_bool a b).

(** The power of ten with [d] zeros. *)
Definition tenPow (d : nat) : positive :=
  match d with O => 1%positive | _ => Pos.pow 10 (Pos.of_nat d) end.

(** Nearest integer of a non-negative number, the larger one on a tie:
    the [n] of [Number.prototype.toFixed] ("let n be an integer for which
    n / 10^f - x is as close to zero as possible; if there are two such n,
    pick the larger n"). *)
Definition nearestInt (x : Q) : Z := Qfloor (x + (1 # 2)).

(** Magnitude of [x.toFixed(d)], as the integer [n] with [d] implied
    decimals; the sign is handled apart, as [toFixed] does. *)
Definition toFixedDigits (d : nat) (x : Q) : Z :=
  nearestInt (Qabs x * inject_Z (Zpos (tenPow d))).

(** [Number(x.toFixed(d))]. *)
Definition roundTo (d : nat) (x : Q) : Q :=
  let n := toFixedDigits d x in
  if ltb x 0 then (- n # tenPow d) else (n # tenPow d).

(** Decimal digits of a non-negative integer. *)
Definition digitsOfZ (n : Z) : string :=
  NilZero.string_of_uint (N.to_uint (Z.to_N n)).

Fixpoint zeros (k : nat) : string :=
  match k with O => EmptyString | S k' => String "0" (zeros k') end.

Fixpoint splitAt (k : nat) (s : string) : string * string :=
  match k, s with
  | S k', String c s' => let (a, b) := splitAt k' s' in (String c a, b)
  | _, _ => (EmptyString, s)
  end.

(** [x.toFixed(d)]: sign, integer part, and exactly [d] decimals (the
    positional notation, which JavaScript uses below [1e21]). *)
Definition toFixed (d : nat) (x : Q) : string :=
  let m := digitsOfZ (toFixedDigits d x) in
  let k := String.length m in
  let m' := if Nat.leb k d then (zeros (S d - k) ++ m)%string else m in
  let (a, b) := splitAt (String.length m' - d) m' in
  let body := match d with O => m' | _ => (a ++ "." ++ b)%string end in
  if ltb x 0 then ("-" ++ body)%string else body.

Fixpoint dropTrailingZeros (s : string) : string :=
  match s with
  | EmptyString => EmptyString
  | String c s' =>
      match dropTrailingZeros s' with
      | EmptyString => if Ascii.eqb c "0" then EmptyString else String c EmptyString
      | r => String c r
      end
  end.

(** [`${x}`], the number-to-string conversion of a template literal.  It
    is applied by the code to input numbers only (map bounds, the feed
    word).  The decimal expansion is printed in positional notation without
    trailing zeros, which is what JavaScript prints for a decimal with at
    most 20 fractional digits and a magnitude in [1e-6, 1e21). *)
Definition numberToString (x : Q) : string :=
  let s := toFixed 20 x in
  let (a, b) := splitAt (String.length s - 21) s in
  match dropTrailingZeros b with
  | String "." EmptyString => a
  | b' => (a ++ b')%string
  end.

(** A distance [Math.sqrt(d2)], carried as [d2]. *)
Definition Distance := Q.

(** [Math.sqrt(d2) <= len]. *)
Definition dist_leb (d2 : Distance) (len : Q) : bool :=
  Qle_bool 0 len && Qle_bool d2 (len * len).

(** [Math.ceil(Math.sqrt(d2) / len)] for [len <> 0]: the least integer
    [n] with [sqrt d2 <= n * len] when [len > 0]; the quotient is not
    positive when [len < 0]. *)
Definition dist_ceil_div (d2 : Distance) (len : Q) : Z :=
  if Qle_bool 0 len
  then Z.sqrt_up (Qceiling (d2 / (len * len)))
  else (- Z.sqrt (Qfloor (d2 / (len * len))))%Z.

(* ================================================================== *)
(** ** Text *)

Definition newline : ascii := "010"%char.

(** White space of [String.prototype.trim] and of the regular expression
    class [\s], on ASCII: TAB, LF, VT, FF, CR and space. *)
Definition isWhiteSpace (c : ascii) : bool :=
  let n := nat_of_ascii c in
  (Nat.leb 9 n && Nat.leb n 13) || Nat.eqb n 32.

Definition isDigit (c : ascii) : bool :=
  let n := nat_of_ascii c in Nat.leb 48 n && Nat.leb n 57.

Fixpoint trimStart (s : string) : string :=
  match s with
  | EmptyString => EmptyString
  | String c s' => if isWhiteSpace c then trimStart s' else s
  end.

Fixpoint trimEnd (s : string) : string :=
  match s with
  | EmptyString => EmptyString
  | String c s' =>
      match trimEnd s' with
      | EmptyString => if isWhiteSpace c then EmptyString else String c EmptyString
      | r => String c r
      end
  end.

Definition trim (s : string) : string := trimEnd (trimStart s).

Definition upperChar (c : ascii) : ascii :=
  let n := nat_of_ascii c in
  if Nat.leb 97 n && Nat.leb n 122 then ascii_of_nat (n - 32) else c.

Fixpoint toUpperCase (s : string) : string :=
  match s with
  | EmptyString => EmptyString
  | String c s' => String (upperChar c) (toUpperCase s')
  end.

Fixpoint startsWith (p s : string) : bool :=
  match p, s with
  | EmptyString, _ => true
  | String a p', String b s' => Ascii.eqb a b && startsWith p' s'
  | _, _ => false
  end.

(** [p] occurs in [s]: an unanchored literal pattern. *)
Fixpoint includes (p s : string) : bool :=
  startsWith p s ||
  match s with
  | EmptyString => false
  | String _ s' => includes p s'
  end.

(** [s.match(/p/i)] for a literal pattern [p] written in upper case. *)
Definition matchesIgnoreCase (p s : string) : bool :=
  includes p (toUpperCase s).

(** [s.split('\n')]. *)
Fixpoint splitLines (s : string) : list string :=
  match s with
  | EmptyString => [EmptyString]
  | String c s' =>
      if Ascii.eqb c newline then EmptyString :: splitLines s'
      else match splitLines s' with
           | h :: t => String c h :: t
           | [] => [String c EmptyString]
           end
  end.

(** [lines.join('\n')]. *)
Definition joinLines (l : list string) : string :=
  String.concat (String newline EmptyString) l.

(** Longest prefix of digits, and what follows it. *)
Fixpoint takeDigits (s : string) : string * string :=
  match s with
  | String c s' =>
      if isDigit c then let (a, b) := takeDigits s' in (String c a, b)
      else (EmptyString, s)
  | EmptyString => (EmptyString, EmptyString)
  end.

(** The group captured by the number pattern of the coordinate words: an
    optional minus sign (only when [minus] is [true]), one or more digits,
    an optional dot, any number of digits; anchored at the start of [s]. *)
Definition numberAt (minus : bool) (s : string) : option string :=
  let (sign, s1) :=
    match s with
    | String "-" s' => if minus then ("-"%string, s') else (EmptyString, s)
    | _ => (EmptyString, s)
    end in
  let (ds, s2) := takeDigits s1 in
  match ds with
  | EmptyString => None
  | _ =>
      match s2 with
      | String "." s3 => Some (sign ++ ds ++ "." ++ fst (takeDigits s3))%string
      | _ => Some (sign ++ ds)%string
      end
  end.

(** [s.match] on the pattern "letter, then number": the capture of the
    leftmost match. *)
Fixpoint matchWord (letter : ascii) (minus : bool) (s : string) : option string :=
  match s with
  | EmptyString => None
  | String c s' =>
      if Ascii.eqb c letter then
        match numberAt minus s' with
        | Some cap => Some cap
        | None => matchWord letter minus s'
        end
      else matchWord letter minus s'
  end.

Fixpoint digitsValue (acc : Z) (s : string) : Z :=
  match s with
  | EmptyString => acc
  | String c s' => digitsValue (acc * 10 + (Z.of_nat (nat_of_ascii c) - 48))%Z s'
  end.

(** [parseFloat] on a literal captured by [numberAt]. *)
Definition parseFloat (s : string) : Q :=
  let (neg, s1) :=
    match s with
    | String "-" s' => (true, s')
    | _ => (false, s)
    end in
  let (ip, rest) := takeDigits s1 in
  let fp := match rest with
            | String "." r => fst (takeDigits r)
            | _ => EmptyString
            end in
  let v := digitsValue 0 (ip ++ fp) # tenPow (String.length fp) in
  if neg then - v else v.

(* ================================================================== *)
(** ** definitions.ts *)

Record HeightMapPoint := mkPoint { pt_x : Q; pt_y : Q; pt_z : Q }.

Record HeightMapBounds := mkBounds { minX : Q; maxX : Q; minY : Q; maxY : Q }.

Record HeightMapResolution := mkResolution { res_x : Z; res_y : Z }.

Record HeightMapData := mkMap {
  bounds : HeightMapBounds;
  resolution : HeightMapResolution;
  points : list HeightMapPoint
}.

(* ================================================================== *)
(** ** interpolation.ts *)

(** [[...new Set(l)]]: first occurrences, in insertion order. *)
Fixpoint uniqueValues (seen l : list Q) : list Q :=
  match l with
  | [] => []
  | a :: l' =>
      if existsb (Qeq_bool a) seen then uniqueValues seen l'
      else a :: uniqueValues (a :: seen) l'
  end.

Fixpoint insertSorted (a : Q) (l : list Q) : list Q :=
  match l with
  | [] => [a]
  | b :: l' => if Qle_bool a b then a :: l else b :: insertSorted a l'
  end.

(** [l.sort((a, b) => a - b)]. *)
Fixpoint sortAscending (l : list Q) : list Q :=
  match l with
  | [] => []
  | a :: l' => insertSorted a (sortAscending l')
  end.

Definition uniqueSorted (l : list Q) : list Q :=
  sortAscending (uniqueValues [] l).

(** The interval search loop: [js] are the remaining values of the loop
    counter, [idx] the current value of [x0Index]. *)
Fixpoint intervalLoop (c : Q) (u : list Q) (js : list nat) (idx : nat) : nat :=
  match js with
  | [] => idx
  | i :: js' =>
      if geb c (nth i u 0) && Qle_bool c (nth (i + 1) u 0) then i
      else intervalLoop c u js' (if Nat.eqb i (List.length u - 2) then i else idx)
  end.

Definition intervalIndex (c : Q) (u : list Q) : nat :=
  intervalLoop c u (seq 0 (List.length u - 1)) 0.

Definition findPoint (px py : Q) (pts : list HeightMapPoint) : option HeightMapPoint :=
  find (fun p => Qeq_bool (pt_x p) px && Qeq_bool (pt_y p) py) pts.

Record Surrounding := mkSurrounding {
  p00 : HeightMapPoint; p10 : HeightMapPoint;
  p01 : HeightMapPoint; p11 : HeightMapPoint
}.

Definition clampX (x : Q) (mapData : HeightMapData) : Q :=
  Qmax (minX (bounds mapData)) (Qmin (maxX (bounds mapData)) x).

Definition clampY (y : Q) (mapData : HeightMapData) : Q :=
  Qmax (minY (bounds mapData)) (Qmin (maxY (bounds mapData)) y).

Definition findSurroundingPoints (x y : Q) (mapData : HeightMapData)
  : option Surrounding :=
  let uniqueX := uniqueSorted (map pt_x (points mapData)) in
  let uniqueY := uniqueSorted (map pt_y (points mapData)) in
  if Nat.ltb (List.length uniqueX) 2 || Nat.ltb (List.length uniqueY) 2 then None
  else
    let clampedX := clampX x mapData in
    let clampedY := clampY y mapData in
    let x0Index := intervalIndex clampedX uniqueX in
    let y0Index := intervalIndex clampedY uniqueY in
    let x0 := nth x0Index uniqueX 0 in
    let x1 := match nth_error uniqueX (x0Index + 1) with Some v => v | None => x0 end in
    let y0 := nth y0Index uniqueY 0 in
    let y1 := match nth_error uniqueY (y0Index + 1) with Some v => v | None => y0 end in
    match findPoint x0 y0 (points mapData), findPoint x1 y0 (points mapData),
          findPoint x0 y1 (points mapData), findPoint x1 y1 (points mapData) with
    | Some a, Some b, Some c, Some d => Some (mkSurrounding a b c d)
    | _, _, _, _ => None
    end.

(** The bilinear formula of [bilinearInterpolate]. *)
Definition bilinear (s : Surrounding) (xWeight yWeight : Q) : Q :=
  pt_z (p00 s) * (1 - xWeight) * (1 - yWeight) +
  pt_z (p10 s) * xWeight * (1 - yWeight) +
  pt_z (p01 s) * (1 - xWeight) * yWeight +
  pt_z (p11 s) * xWeight * yWeight.

Definition bilinearInterpolate (x y : Q) (mapData : HeightMapData) : option Q :=
  match findSurroundingPoints x y mapData with
  | None => None
  | Some s =>
      if Qeq_bool (pt_x (p00 s)) (pt_x (p10 s)) && Qeq_bool (pt_y (p00 s)) (pt_y (p01 s))
      then Some (pt_z (p00 s))
      else
        let xRange := pt_x (p10 s) - pt_x (p00 s) in
        let yRange := pt_y (p01 s) - pt_y (p00 s) in
        let xWeight := if gtb xRange 0 then (x - pt_x (p00 s)) / xRange else 0 in
        let yWeight := if gtb yRange 0 then (y - pt_y (p00 s)) / yRange else 0 in
        Some (bilinear s xWeight yWeight)
  end.

Definition getZOffset (x y : Q) (mapData : option HeightMapData) : Q :=
  match mapData with
  | None => 0
  | Some m =>
      match points m with
      | [] => 0
      | _ =>
          match bilinearInterpolate x y m with
          | Some z => z
          | None => 0
          end
      end
  end.

Definition isWithinBounds (x y : Q) (mapData : HeightMapData) : bool :=
  geb x (minX (bounds mapData)) && Qle_bool x (maxX (bounds mapData)) &&
  geb y (minY (bounds mapData)) && Qle_bool y (maxY (bounds mapData)).

Record ProbeGridPoint := mkGridPoint { grid_x : Q; grid_y : Q }.

(** [Array.from({ length: n }, (_, i) => f i)]; a length that is not
    positive gives the empty array. *)
Definition arrayFrom (n : Z) (f : Z -> Q) : list Q :=
  map (fun i => f (Z.of_nat i)) (seq 0 (Z.to_nat n)).

(** [Math.ceil((hi - lo) / gridSpacing) + 1].  With [gridSpacing = 0] the
    quotient is [+Infinity] when [hi > lo], and [Array.from] then raises a
    [RangeError]: [None].  Otherwise it is [NaN] or [-Infinity], and the
    array is empty. *)
Definition spacingCount (lo hi gridSpacing : Q) : option Z :=
  if Qeq_bool gridSpacing 0
  then (if gtb (hi - lo) 0 then None else Some 0%Z)
  else Some (Qceiling ((hi - lo) / gridSpacing) + 1)%Z.

(** One axis of the spacing mode: the generated coordinates, and the
    far edge pushed when the last one differs from it. *)
Definition spacingAxis (lo hi gridSpacing : Q) : option (list Q) :=
  match spacingCount lo hi gridSpacing with
  | None => None
  | Some count =>
      let pts := arrayFrom count
                   (fun i => roundTo 3 (Qmin (lo + inject_Z i * gridSpacing) hi)) in
      Some (match nth_error pts (List.length pts - 1) with
            | Some v => if neqb v hi then pts ++ [hi] else pts
            | None => pts ++ [hi]
            end)
  end.

(** One axis of the point-count mode. *)
Definition countAxis (lo hi : Q) (pointCount : Z) : list Q :=
  let step := if (1 <? pointCount)%Z
              then (hi - lo) / inject_Z (pointCount - 1) else 0 in
  arrayFrom pointCount (fun i => roundTo 3 (lo + inject_Z i * step)).

(** The row of index [yi]: the x values in order on an even index,
    reversed on an odd one. *)
Definition gridRow (xPoints : list Q) (yi : nat) (y : Q) : list ProbeGridPoint :=
  let xOrder := if Nat.eqb (yi mod 2) 0 then xPoints else rev xPoints in
  map (fun x => mkGridPoint x y) xOrder.

Definition gridRows (xPoints yPoints : list Q) : list (list ProbeGridPoint) :=
  map (fun iy => gridRow xPoints (fst iy) (snd iy))
      (combine (seq 0 (List.length yPoints)) yPoints).

Definition calculateProbeGrid (minX maxX minY maxY gridSpacing : Q)
    (usePointCount : bool) (pointCountX pointCountY : Z)
  : option (list ProbeGridPoint) :=
  let axes :=
    if usePointCount
    then Some (countAxis minX maxX pointCountX, countAxis minY maxY pointCountY)
    else match spacingAxis minX maxX gridSpacing, spacingAxis minY maxY gridSpacing with
         | Some xs, Some ys => Some (xs, ys)
         | _, _ => None
         end in
  match axes with
  | Some (xPoints, yPoints) => Some (List.concat (gridRows xPoints yPoints))
  | None => None
  end.

(* ================================================================== *)
(** ** gcodeTransformer.ts *)

Inductive MoveType := G0 | G1 | G2 | G3 | other.

Record ParsedMove := mkParsed {
  type : MoveType;
  originalLine : string;
  move_x : option Q;
  move_y : option Q;
  move_z : option Q;
  move_f : option Q;
  hasX : bool;
  hasY : bool;
  hasZ : bool
}.

Record TransformOptions := mkOptions {
  segmentLength : Q;
  warnOutsideBounds : bool
}.

Definition isMoveDelimiter (c : ascii) : bool :=
  isWhiteSpace c || Ascii.eqb c "X" || Ascii.eqb c "Y" ||
  Ascii.eqb c "Z" || Ascii.eqb c "F".

Definition headIs (p : ascii -> bool) (s : string) : bool :=
  match s with String c _ => p c | EmptyString => false end.

(** The anchored pattern "G, an optional 0, the digit [d], then white
    space or one of X Y Z F". *)
Definition moveCommand (d : ascii) (s : string) : bool :=
  match s with
  | String "G" (String a (String b r)) =>
      (Ascii.eqb a "0" && Ascii.eqb b d && headIs isMoveDelimiter r)
      || (Ascii.eqb a d && isMoveDelimiter b)
  | _ => false
  end.

Definition isSome {A : Type} (o : option A) : bool :=
  match o with Some _ => true | None => false end.

(** [o ?? d]. *)
Definition orElse {A : Type} (o : option A) (d : A) : A :=
  match o with Some v => v | None => d end.

Definition parseGcodeLine (line : string) (currentX currentY currentZ : Q)
  : ParsedMove :=
  let trimmed := toUpperCase (trim line) in
  let g0Match := moveCommand "0" trimmed in
  let g1Match := moveCommand "1" trimmed in
  if negb g0Match && negb g1Match then
    mkParsed other line None None None None false false false
  else
    let xMatch := matchWord "X" true trimmed in
    let yMatch := matchWord "Y" true trimmed in
    let zMatch := matchWord "Z" true trimmed in
    let fMatch := matchWord "F" false trimmed in
    mkParsed (if g0Match then G0 else G1) line
      (Some (orElse (option_map parseFloat xMatch) currentX))
      (Some (orElse (option_map parseFloat yMatch) currentY))
      (Some (orElse (option_map parseFloat zMatch) currentZ))
      (option_map parseFloat fMatch)
      (isSome xMatch) (isSome yMatch) (isSome zMatch).

(** The square of [distance2D]: see [Distance]. *)
Definition distance2D (x1 y1 x2 y2 : Q) : Distance :=
  (x2 - x1) * (x2 - x1) + (y2 - y1) * (y2 - y1).

Record Segment := mkSegment { seg_x : Q; seg_y : Q; seg_z : Q }.

(** The values [1 .. n] of the loop counter. *)
Definition countFromOne (n : Z) : list Z :=
  map Z.of_nat (seq 1 (Z.to_nat n)).

(** [None]: with [segmentLength = 0] and a positive distance,
    [numSegments] is [Infinity] and the loop does not end. *)
Definition segmentLine (startX startY startZ endX endY endZ segmentLength : Q)
  : option (list Segment) :=
  let dist := distance2D startX startY endX endY in
  if dist_leb dist segmentLength then Some [mkSegment endX endY endZ]
  else if Qeq_bool segmentLength 0 then None
  else
    let numSegments := dist_ceil_div dist segmentLength in
    Some (map (fun i =>
                 let t := inject_Z i / inject_Z numSegments in
                 mkSegment (roundTo 4 (startX + t * (endX - startX)))
                           (roundTo 4 (startY + t * (endY - startY)))
                           (roundTo 4 (startZ + t * (endZ - startZ))))
              (countFromOne numSegments)).

Definition typeName (t : MoveType) : string :=
  match t with
  | G0 => "G0" | G1 => "G1" | G2 => "G2" | G3 => "G3" | other => "other"
  end.

Definition buildGcodeLine (ty : MoveType) (x y : option Q) (z : Q)
    (f : option Q) (hasX hasY : bool) : string :=
  let line := typeName ty in
  let line := match x with
              | Some v => if hasX then (line ++ " X" ++ toFixed 4 v)%string else line
              | None => line
              end in
  let line := match y with
              | Some v => if hasY then (line ++ " Y" ++ toFixed 4 v)%string else line
              | None => line
              end in
  let line := (line ++ " Z" ++ toFixed 4 z)%string in
  match f with
  | Some v => (line ++ " F" ++ numberToString v)%string
  | None => line
  end.

(** The loop over the segments: the feed rate goes to the line pushed
    while [lines] is still empty. *)
Fixpoint segmentLines (ty : MoveType) (f : option Q) (mapData : HeightMapData)
    (segments : list Segment) (lines : list string) : list string :=
  match segments with
  | [] => lines
  | segment :: rest =>
      let zOffset := getZOffset (seg_x segment) (seg_y segment) (Some mapData) in
      let adjustedZ := seg_z segment + zOffset in
      let feedRate := match lines with [] => f | _ => None end in
      segmentLines ty f mapData rest
        (lines ++ [buildGcodeLine ty (Some (seg_x segment)) (Some (seg_y segment))
                     adjustedZ feedRate true true])
  end.

Definition transformLine (parsed : ParsedMove) (currentX currentY currentZ : Q)
    (mapData : HeightMapData) (options : TransformOptions)
  : option (list string) :=
  match type parsed with
  | other => Some [originalLine parsed]
  | _ =>
      let targetX := orElse (move_x parsed) currentX in
      let targetY := orElse (move_y parsed) currentY in
      let targetZ := orElse (move_z parsed) currentZ in
      if negb (hasZ parsed) && negb (hasX parsed) && negb (hasY parsed) then
        Some [originalLine parsed]
      else if negb (hasX parsed) && negb (hasY parsed) then
        let zOffset := getZOffset currentX currentY (Some mapData) in
        let adjustedZ := targetZ + zOffset in
        Some [buildGcodeLine (type parsed) None None adjustedZ (move_f parsed)
                false false]
      else
        let dist := distance2D currentX currentY targetX targetY in
        if dist_leb dist (segmentLength options) then
          let zOffset := getZOffset targetX targetY (Some mapData) in
          let adjustedZ := targetZ + zOffset in
          Some [buildGcodeLine (type parsed) (Some targetX) (Some targetY)
                  adjustedZ (move_f parsed) (hasX parsed) (hasY parsed)]
        else
          match segmentLine currentX currentY currentZ targetX targetY targetZ
                  (segmentLength options) with
          | None => None
          | Some segments =>
              Some (segmentLines (type parsed) (move_f parsed) mapData segments [])
          end
  end.

(** The variables of [transformGcode] that the loop over the lines
    updates. *)
Record LoopState := mkState {
  transformedLines : list string;
  warnings : list string;
  currentX : Q;
  currentY : Q;
  currentZ : Q;
  absoluteMode : bool;
  outsideBoundsWarned : bool
}.

Definition boundsWarning : string :=
  "Warning: G-code extends outside height map bounds. Z-offset will be extrapolated from nearest edge points.".

Definition headerLines (mapData : HeightMapData) : list string :=
  let b := bounds mapData in
  [ "; Height Map Applied by gSender";
    ("; Map bounds: X[" ++ numberToString (minX b) ++ ", " ++ numberToString (maxX b)
       ++ "] Y[" ++ numberToString (minY b) ++ ", " ++ numberToString (maxY b) ++ "]");
    ("; Grid points: " ++ digitsOfZ (Z.of_nat (List.length (points mapData))));
    "" ]%string.

Definition initialState (mapData : HeightMapData) : LoopState :=
  mkState (headerLines mapData) [] 0 0 0 true false.

(** [transformedLines.push(...ls)], the rest of the state unchanged. *)
Definition pushLines (st : LoopState) (ls : list string) : LoopState :=
  mkState (transformedLines st ++ ls) (warnings st)
          (currentX st) (currentY st) (currentZ st)
          (absoluteMode st) (outsideBoundsWarned st).

Definition setAbsoluteMode (st : LoopState) (b : bool) : LoopState :=
  mkState (transformedLines st) (warnings st)
          (currentX st) (currentY st) (currentZ st)
          b (outsideBoundsWarned st).

(** The bounds check of one parsed line. *)
Definition checkBounds (mapData : HeightMapData) (options : TransformOptions)
    (parsed : ParsedMove) (st : LoopState) : LoopState :=
  if warnOutsideBounds options && negb (outsideBoundsWarned st)
     && (hasX parsed || hasY parsed) then
    let targetX := orElse (move_x parsed) (currentX st) in
    let targetY := orElse (move_y parsed) (currentY st) in
    if negb (isWithinBounds targetX targetY mapData) then
      mkState (transformedLines st) (warnings st ++ [boundsWarning])
              (currentX st) (currentY st) (currentZ st)
              (absoluteMode st) true
    else st
  else st.

(** The body of the loop over the lines, for one [line]. *)
Definition processLine (mapData : HeightMapData) (options : TransformOptions)
    (st : LoopState) (line : string) : option LoopState :=
  let trimmed := trim line in
  if String.eqb trimmed "" || startsWith ";" trimmed || startsWith "(" trimmed then
    Some (pushLines st [line])
  else if matchesIgnoreCase "G90" trimmed then
    Some (pushLines (setAbsoluteMode st true) [line])
  else if matchesIgnoreCase "G91" trimmed then
    Some (pushLines (setAbsoluteMode st false) [line])
  else if negb (absoluteMode st) then
    Some (pushLines st [line])
  else
    let parsed := parseGcodeLine line (currentX st) (currentY st) (currentZ st) in
    let st1 := checkBounds mapData options parsed st in
    match type parsed with
    | G0 | G1 =>
        match transformLine parsed (currentX st1) (currentY st1) (currentZ st1)
                mapData options with
        | None => None
        | Some newLines =>
            Some (mkState (transformedLines st1 ++ newLines) (warnings st1)
                    (orElse (move_x parsed) (currentX st1))
                    (orElse (move_y parsed) (currentY st1))
                    (orElse (move_z parsed) (currentZ st1))
                    (absoluteMode st1) (outsideBoundsWarned st1))
        end
    | _ => Some (pushLines st1 [line])
    end.

(** The loop over the lines. *)
Fixpoint processLines (mapData : HeightMapData) (options : TransformOptions)
    (st : LoopState) (lines : list string) : option LoopState :=
  match lines with
  | [] => Some st
  | line :: rest =>
      match processLine mapData options st line with
      | None => None
      | Some st' => processLines mapData options st' rest
      end
  end.

Record TransformResult := mkResult {
  transformedGcode : string;
  resultWarnings : list string
}.

Definition defaultOptions : TransformOptions := mkOptions 1 true.

Definition transformGcode (gcode : string) (mapData : HeightMapData)
    (options : TransformOptions) : option TransformResult :=
  match processLines mapData options (initialState mapData) (splitLines gcode) with
  | None => None
  | Some st => Some (mkResult (joinLines (transformedLines st)) (warnings st))
  end.

(** A number that may be [Infinity] or [-Infinity]: the running extremes
    of [validateGcodeBounds]. *)
Inductive ExtNumber := NegInfinity | Finite (q : Q) | PosInfinity.

(** [Math.min(a, x)] and [Math.max(a, x)] for a finite [x]. *)
Definition extMin (a : ExtNumber) (x : Q) : ExtNumber :=
  match a with
  | NegInfinity => NegInfinity
  | Finite q => Finite (Qmin q x)
  | PosInfinity => Finite x
  end.

Definition extMax (a : ExtNumber) (x : Q) : ExtNumber :=
  match a with
  | NegInfinity => Finite x
  | Finite q => Finite (Qmax q x)
  | PosInfinity => PosInfinity
  end.

(** [a >= b] and [a <= b] for a finite [b]. *)
Definition extGeb (a : ExtNumber) (b : Q) : bool :=
  match a with
  | NegInfinity => false
  | Finite q => geb q b
  | PosInfinity => true
  end.

Definition extLeb (a : ExtNumber) (b : Q) : bool :=
  match a with
  | NegInfinity => true
  | Finite q => Qle_bool q b
  | PosInfinity => false
  end.

(** [line.match] on the coordinate pattern of [letter], which ignores
    case: the capture holds a sign, digits and a dot only, so it is read
    off the upper-cased line. *)
Definition matchWordIgnoreCase (letter : ascii) (line : string) : option string :=
  matchWord letter true (toUpperCase line).

(** The variables [minX], [maxX], [minY], [maxY] of [validateGcodeBounds]. *)
Record Extent := mkExtent {
  ext_minX : ExtNumber;
  ext_maxX : ExtNumber;
  ext_minY : ExtNumber;
  ext_maxY : ExtNumber
}.

(** The body of the loop of [validateGcodeBounds], for one [line]. *)
Definition scanLine (e : Extent) (line : string) : Extent :=
  let xMatch := matchWordIgnoreCase "X" line in
  let yMatch := matchWordIgnoreCase "Y" line in
  let e1 := match xMatch with
            | Some cap =>
                let x := parseFloat cap in
                mkExtent (extMin (ext_minX e) x) (extMax (ext_maxX e) x)
                         (ext_minY e) (ext_maxY e)
            | None => e
            end in
  match yMatch with
  | Some cap =>
      let y := parseFloat cap in
      mkExtent (ext_minX e1) (ext_maxX e1)
               (extMin (ext_minY e1) y) (extMax (ext_maxY e1) y)
  | None => e1
  end.

Definition initialExtent : Extent :=
  mkExtent PosInfinity NegInfinity PosInfinity NegInfinity.

Record BoundsValidation := mkValidation {
  valid : bool;
  gcodeMinX : ExtNumber;
  gcodeMaxX : ExtNumber;
  gcodeMinY : ExtNumber;
  gcodeMaxY : ExtNumber
}.

Definition validateGcodeBounds (gcode : string) (mapData : HeightMapData)
  : BoundsValidation :=
  let lines := splitLines gcode in
  let e := fold_left scanLine lines initialExtent in
  let b := bounds mapData in
  mkValidation
    (extGeb (ext_minX e) (minX b) && extLeb (ext_maxX e) (maxX b)
     && extGeb (ext_minY e) (minY b) && extLeb (ext_maxY e) (maxY b))
    (match ext_minX e with PosInfinity => Finite 0 | v => v end)
    (match ext_maxX e with NegInfinity => Finite 0 | v => v end)
    (match ext_minY e with PosInfinity => Finite 0 | v => v end)
    (match ext_maxY e with NegInfinity => Finite 0 | v => v end).

(** The sample height map of the test plan. *)
Definition sampleMap : HeightMapData :=
  mkMap (mkBounds 0 100 0 100) (mkResolution 50 50)
    [ mkPoint 0 0 0.1; mkPoint 50 0 0.2; mkPoint 100 0 0.15;
      mkPoint 100 50 0.3; mkPoint 50 50 0.25; mkPoint 0 50 0.2;
      mkPoint 0 100 0.1; mkPoint 50 100 0.15; mkPoint 100 100 0.2 ].

(* ================================================================== *)
(** ** components/GridVisualizer.tsx *)

(** [Math.round]: the nearest integer, the larger one on a tie. *)
Definition mathRound (x : Q) : Z := Qfloor (x + (1 # 2)).

(** The pair [minZ], [maxZ] of the colour scale: [Math.min] and [Math.max]
    over the heights of the map, [0] twice without a map or without
    points. *)
Definition zScale (mapData : option HeightMapData) : Q * Q :=
  match mapData with
  | None => (0, 0)
  | Some m =>
      match map pt_z (points m) with
      | [] => (0, 0)
      | z :: zValues => (fold_left Qmin zValues z, fold_left Qmax zValues z)
      end
  end.

Record Rgb := mkRgb { red : Z; green : Z; blue : Z }.

(** The numbers [r], [g], [b] of [getZColor] on a scale that is not flat. *)
Definition zColorChannels (minZ maxZ z : Q) : Rgb :=
  let normalized := (z - minZ) / (maxZ - minZ) in
  let r := mathRound (normalized * 255) in
  let b := mathRound ((1 - normalized) * 255) in
  let g := mathRound ((1 - Qabs (normalized - (1 # 2)) * 2) * 200) in
  mkRgb r g b.

(** An integer in a template literal. *)
Definition integerToString (n : Z) : string :=
  if (n <? 0)%Z then ("-" ++ digitsOfZ (- n))%string else digitsOfZ n.

Definition getZColor (minZ maxZ z : Q) : string :=
  if Qeq_bool maxZ minZ then "rgb(100, 200, 100)"%string
  else
    let c := zColorChannels minZ maxZ z in
    ("rgb(" ++ integerToString (red c) ++ ", " ++ integerToString (green c) ++ ", "
       ++ integerToString (blue c) ++ ")")%string.

(* ================================================================== *)
(** ** Notions used in the statements *)

(** Values that pairwise differ. *)
Definition distinct (l : list Q) : Prop :=
  ForallOrdPairs (fun a b => ~ a == b) l.

(** The test of the loop body: [c] lies in the interval of index [i]. *)
Definition inInterval (c : Q) (u : list Q) (i : nat) : bool :=
  geb c (nth i u 0) && Qle_bool c (nth (i + 1) u 0).

Definition xRange (s : Surrounding) : Q := pt_x (p10 s) - pt_x (p00 s).

Definition yRange (s : Surrounding) : Q := pt_y (p01 s) - pt_y (p00 s).

(** The weights of [bilinearInterpolate] at a query coordinate. *)
Definition xWeightAt (s : Surrounding) (x : Q) : Q := (x - pt_x (p00 s)) / xRange s.

Definition yWeightAt (s : Surrounding) (y : Q) : Q := (y - pt_y (p00 s)) / yRange s.



(** The coordinates generated on one axis in spacing mode, before the
    far edge is pushed. *)
Definition generatedAxis (lo hi gridSpacing : Q) : list Q :=
  arrayFrom (Qceiling ((hi - lo) / gridSpacing) + 1)
            (fun i => roundTo 3 (Qmin (lo + inject_Z i * gridSpacing) hi)).

(** [l[l.length - 1]]. *)
Definition lastOf (l : list Q) : option Q := nth_error l (List.length l - 1).

(** A list of numbers in non-decreasing order, and in non-increasing
    order, position by position. *)
Definition nonDecreasing (l : list Q) : Prop :=
  forall i j a b, (i <= j)%nat ->
    nth_error l i = Some a -> nth_error l j = Some b -> a <= b.

Definition nonIncreasing (l : list Q) : Prop :=
  forall i j a b, (i <= j)%nat ->
    nth_error l i = Some a -> nth_error l j = Some b -> b <= a.

(** The first test of the loop body: a blank line or a comment. *)
Definition isBlankOrComment (line : string) : bool :=
  let trimmed := trim line in
  String.eqb trimmed "" || startsWith ";" trimmed || startsWith "(" trimmed.

(** A line that takes the branch of the absolute-mode pattern, and one
    that takes the branch of the incremental-mode pattern. *)
Definition isAbsoluteSwitch (line : string) : bool :=
  negb (isBlankOrComment line) && matchesIgnoreCase "G90" (trim line).

Definition isIncrementalSwitch (line : string) : bool :=
  negb (isBlankOrComment line) && negb (matchesIgnoreCase "G90" (trim line))
  && matchesIgnoreCase "G91" (trim line).

(** A line that reaches [parseGcodeLine] in state [st]. *)
Definition reachesParser (st : LoopState) (line : string) : bool :=
  negb (isBlankOrComment line) && negb (matchesIgnoreCase "G90" (trim line))
  && negb (matchesIgnoreCase "G91" (trim line)) && absoluteMode st.

(** The number written after an axis letter on a line, if any. *)
Definition wordValue (letter : ascii) (line : string) : option Q :=
  option_map parseFloat (matchWord letter true (toUpperCase (trim line))).

Definition isMotion (p : ParsedMove) : bool :=
  match type p with G0 | G1 => true | _ => false end.

(** The line emitted for one sub-segment: its own offset at its own
    [(x, y)], both axes written. *)
Definition emitSegment (ty : MoveType) (m : HeightMapData) (f : option Q)
    (seg : Segment) : string :=
  buildGcodeLine ty (Some (seg_x seg)) (Some (seg_y seg))
    (seg_z seg + getZOffset (seg_x seg) (seg_y seg) (Some m)) f true true.

(** A line that the bounds check looks at and finds outside: it reaches
    the parser, is a motion line that carries an X or a Y word, and its
    target is not within the bounds. *)
Definition offendingLine (m : HeightMapData) (st : LoopState) (line : string) : bool :=
  let parsed := parseGcodeLine line (currentX st) (currentY st) (currentZ st) in
  reachesParser st line && (hasX parsed || hasY parsed)
  && negb (isWithinBounds (orElse (move_x parsed) (currentX st))
                          (orElse (move_y parsed) (currentY st)) m).

(** The cell chosen for the query (110, 50), east of the sample map. *)
Definition eastCell : Surrounding :=
  mkSurrounding (mkPoint 50 0 0.2) (mkPoint 100 0 0.15)
                (mkPoint 50 50 0.25) (mkPoint 100 50 0.3).

(** A map that passes validation (four points, three distinct x and y
    values) but is not a full grid: the query at the stored sample (2, 2)
    selects the cell [1, 2] x [1, 2], three corners of which are missing. *)
Definition sparseMap : HeightMapData :=
  mkMap (mkBounds 0 2 0 2) (mkResolution 3 3)
    [mkPoint 0 0 1; mkPoint 1 0 2; mkPoint 0 1 3; mkPoint 2 2 5].

(** A line that the loop copies whatever the state: a blank line, a
    comment, a mode switch, a line that is not a G0 or G1 move, or a G0 or
    G1 move that carries no X, Y or Z word. *)
Definition carriesNoMove (line : string) : bool :=
  let parsed := parseGcodeLine line 0 0 0 in
  isBlankOrComment line
  || matchesIgnoreCase "G90" (trim line)
  || matchesIgnoreCase "G91" (trim line)
  || negb (isMotion parsed)
  || (negb (hasX parsed) && negb (hasY parsed) && negb (hasZ parsed)).

(** The number that [validateGcodeBounds] reads after an axis letter on a
    line, if any. *)
Definition scannedValue (letter : ascii) (line : string) : option Q :=
  option_map parseFloat (matchWordIgnoreCase letter line).

(** The numbers read after an axis letter on the lines of a program, in
    order. *)
Definition scannedValues (letter : ascii) (lines : list string) : list Q :=
  flat_map (fun l => match scannedValue letter l with Some v => [v] | None => [] end)
           lines.


(** The state of the loop while no target has left the bounds. *)
Definition insideSoFar (m : HeightMapData) (st : LoopState) : Prop :=
  isWithinBounds (currentX st) (currentY st) m = true
  /\ warnings st = [] /\ outsideBoundsWarned st = false.




(** The samples of the sample map under bounds that reach beyond them. *)
Definition wideMap : HeightMapData :=
  mkMap (mkBounds 0 200 0 100) (mkResolution 50 50) (points sampleMap).

(** The cell of the sample map next to the origin. *)
Definition originCell : Surrounding :=
  mkSurrounding (mkPoint 0 0 0.1) (mkPoint 50 0 0.2)
                (mkPoint 0 50 0.2) (mkPoint 50 50 0.25).

(* ================================================================== *)
(** * Properties *)

(** ** Comparisons *)

Lemma geb_true (a b : Q) : geb a b = true <-> b <= a.
Proof. unfold geb. apply Qle_bool_iff. Qed.

Lemma gtb_true (a b : Q) : gtb a b = true <-> b < a.
Proof.
  unfold gtb. rewrite negb_true_iff. split; intro H.
  - apply Qnot_le_lt. intro L. apply Qle_bool_iff in L. congruence.
  - destruct (Qle_bool a b) eqn:E; trivial.
    apply Qle_bool_iff in E. exfalso. apply (Qlt_not_le _ _ H E).
Qed.

Lemma gtb_false (a b : Q) : gtb a b = false <-> a <= b.
Proof.
  unfold gtb. rewrite negb_false_iff. apply Qle_bool_iff.
Qed.

Lemma ltb_true (a b : Q) : ltb a b = true <-> a < b.
Proof. apply (gtb_true b a). Qed.

Lemma Qle_bool_false (a b : Q) : Qle_bool a b = false <-> b < a.
Proof.
  rewrite <- (gtb_true a b). unfold gtb. apply iff_sym, negb_true_iff.
Qed.

Lemma Qeq_bool_false (a b : Q) : Qeq_bool a b = false <-> ~ a == b.
Proof.
  split; intro H.
  - intro E. apply Qeq_bool_iff in E. congruence.
  - destruct (Qeq_bool a b) eqn:E; trivial.
    apply Qeq_bool_iff in E. contradiction.
Qed.

(** ** Rounding *)

Lemma Qmult_nonneg_cancel (a t : Q) : 0 < t -> 0 <= a * t -> 0 <= a.
Proof.
  intros Ht H. apply (Qmult_le_r 0 a t Ht). now rewrite Qmult_0_l.
Qed.

(** [roundTo d x] is a multiple of [10^-d] at most half a unit away from
    [x]. *)
Lemma roundTo_close (d : nat) (x : Q) :
  Qabs (roundTo d x - x) <= 1 # (2 * tenPow d).
Proof.
  unfold roundTo.
  pose proof (Qfloor_le (Qabs x * inject_Z (Z.pos (tenPow d)) + (1 # 2))) as Lo.
  pose proof (Qlt_floor (Qabs x * inject_Z (Z.pos (tenPow d)) + (1 # 2))) as Hi.
  fold (nearestInt (Qabs x * inject_Z (Z.pos (tenPow d)))) in Lo, Hi.
  fold (toFixedDigits d x) in Lo, Hi.
  set (n := toFixedDigits d x) in *.
  rewrite inject_Z_plus in Hi.
  assert (Ht : 0 < inject_Z (Z.pos (tenPow d))) by (now rewrite <- (Zlt_Qlt 0)).
  assert (Hne : ~ inject_Z (Z.pos (tenPow d)) == 0) by lra.
  assert (Eh : (1 # (2 * tenPow d)) * inject_Z (Z.pos (tenPow d)) == 1 # 2).
  { rewrite (Qmake_Qdiv 1 (2 * tenPow d)).
    rewrite Pos2Z.inj_mul, inject_Z_mult. field. exact Hne. }
  assert (En : (n # tenPow d) * inject_Z (Z.pos (tenPow d)) == inject_Z n).
  { rewrite (Qmake_Qdiv n (tenPow d)). field. exact Hne. }
  assert (En' : (- n # tenPow d) * inject_Z (Z.pos (tenPow d)) == - inject_Z n).
  { rewrite (Qmake_Qdiv (- n) (tenPow d)), inject_Z_opp. field. exact Hne. }
  set (t := inject_Z (Z.pos (tenPow d))) in *.
  set (h := 1 # (2 * tenPow d)) in *.
  set (e := n # tenPow d) in *. set (e' := (- n) # tenPow d) in *.
  set (z := inject_Z n) in *. set (one := inject_Z 1) in *.
  assert (E1 : one == 1) by reflexivity.
  clearbody t h e e' z one.
  apply Qabs_Qle_condition.
  destruct (ltb x 0) eqn:Ex.
  - apply ltb_true in Ex. rewrite (Qabs_neg x) in Lo, Hi by lra.
    assert (A : 0 <= (e' - x + h) * t).
    { setoid_replace ((e' - x + h) * t) with (e' * t - x * t + h * t) by ring.
      rewrite En', Eh. lra. }
    assert (B : 0 <= (h - (e' - x)) * t).
    { setoid_replace ((h - (e' - x)) * t) with (h * t - e' * t + x * t) by ring.
      rewrite En', Eh. lra. }
    apply Qmult_nonneg_cancel in A, B; trivial. split; lra.
  - unfold ltb in Ex. apply negb_false_iff, Qle_bool_iff in Ex.
    rewrite (Qabs_pos x) in Lo, Hi by lra.
    assert (A : 0 <= (e - x + h) * t).
    { setoid_replace ((e - x + h) * t) with (e * t - x * t + h * t) by ring.
      rewrite En, Eh. lra. }
    assert (B : 0 <= (h - (e - x)) * t).
    { setoid_replace ((h - (e - x)) * t) with (h * t - e * t + x * t) by ring.
      rewrite En, Eh. lra. }
    apply Qmult_nonneg_cancel in A, B; trivial. split; lra.
Qed.

(** ** The sorted set of coordinates *)

Lemma In_insertSorted (a x : Q) (l : list Q) :
  In x (insertSorted a l) <-> x = a \/ In x l.
Proof.
  induction l as [|b l IH]; simpl.
  - intuition.
  - destruct (Qle_bool a b); simpl; rewrite ?IH; intuition.
Qed.

Lemma In_sortAscending (x : Q) (l : list Q) :
  In x (sortAscending l) <-> In x l.
Proof.
  induction l as [|a l IH]; simpl; [tauto|].
  rewrite In_insertSorted, IH. intuition.
Qed.

Lemma length_insertSorted (a : Q) (l : list Q) :
  List.length (insertSorted a l) = S (List.length l).
Proof.
  induction l as [|b l IH]; simpl; trivial.
  destruct (Qle_bool a b); simpl; congruence.
Qed.

Lemma insertSorted_increasing (a : Q) (l : list Q) :
  StronglySorted Qlt l -> (forall b, In b l -> ~ a == b) ->
  StronglySorted Qlt (insertSorted a l).
Proof.
  induction l as [|b l IH]; intros Hs Hd; simpl.
  - constructor; constructor.
  - inversion Hs as [|? ? Hs' Hb]; subst.
    assert (Hab : ~ a == b) by (apply Hd; now left).
    destruct (Qle_bool a b) eqn:E.
    + apply Qle_bool_iff in E.
      assert (Hlt : a < b).
      { destruct (Qle_lt_or_eq _ _ E); [assumption | contradiction]. }
      constructor; [assumption|].
      constructor; [assumption|].
      rewrite Forall_forall in Hb |- *. intros x Hx.
      apply Qlt_trans with b; auto.
    + apply Qle_bool_false in E.
      constructor.
      * apply IH; [assumption|]. intros c Hc. apply Hd. now right.
      * rewrite Forall_forall in Hb |- *. intros x Hx.
        apply (proj1 (In_insertSorted _ _ _)) in Hx. destruct Hx as [-> | Hx]; auto.
Qed.

Lemma sortAscending_increasing (l : list Q) :
  distinct l -> StronglySorted Qlt (sortAscending l).
Proof.
  induction 1 as [|a l Ha Hl IH]; simpl.
  - constructor.
  - apply insertSorted_increasing; [assumption|].
    intros b Hb. apply (proj1 (In_sortAscending _ _)) in Hb.
    rewrite Forall_forall in Ha. now apply Ha.
Qed.

Lemma existsb_Qeq (a : Q) (l : list Q) :
  existsb (Qeq_bool a) l = true <-> exists b, In b l /\ a == b.
Proof.
  rewrite existsb_exists. split; intros [b [Hb E]]; exists b; split; trivial;
    now apply Qeq_bool_iff.
Qed.

Lemma uniqueValues_fresh (l seen : list Q) (x : Q) :
  In x (uniqueValues seen l) ->
  In x l /\ forall s, In s seen -> ~ x == s.
Proof.
  revert seen. induction l as [|a l IH]; intros seen; simpl; [tauto|].
  destruct (existsb (Qeq_bool a) seen) eqn:E.
  - intro Hx. destruct (IH _ Hx). auto.
  - intros [<- | Hx].
    + split; [now left|]. intros s Hs Heq.
      assert (existsb (Qeq_bool a) seen = true) by (apply existsb_Qeq; eauto).
      congruence.
    + destruct (IH _ Hx) as [H1 H2]. split; [now right|].
      intros s Hs. apply H2. now right.
Qed.

Lemma uniqueValues_distinct (l seen : list Q) :
  distinct (uniqueValues seen l).
Proof.
  revert seen. induction l as [|a l IH]; intros seen; simpl.
  - constructor.
  - destruct (existsb (Qeq_bool a) seen); [apply IH|].
    constructor; [|apply IH].
    rewrite Forall_forall. intros x Hx Heq.
    destruct (uniqueValues_fresh _ _ _ Hx) as [_ H].
    apply (H a); [now left | now symmetry].
Qed.

Lemma uniqueValues_complete (l seen : list Q) (x : Q) :
  In x l ->
  (exists s, In s seen /\ x == s) \/
  (exists r, In r (uniqueValues seen l) /\ x == r).
Proof.
  revert seen. induction l as [|a l IH]; intros seen; simpl; [tauto|].
  intros [<- | Hx].
  - destruct (existsb (Qeq_bool a) seen) eqn:E.
    + left. now apply existsb_Qeq.
    + right. exists a. split; [now left | reflexivity].
  - destruct (existsb (Qeq_bool a) seen) eqn:E.
    + apply IH, Hx.
    + destruct (IH (a :: seen) Hx) as [[s [[<- | Hs] Heq]] | [r [Hr Heq]]].
      * right. exists a. split; [now left | assumption].
      * left. eauto.
      * right. exists r. split; [now right | assumption].
Qed.

Lemma uniqueSorted_increasing (l : list Q) :
  StronglySorted Qlt (uniqueSorted l).
Proof.
  apply sortAscending_increasing, uniqueValues_distinct.
Qed.

Lemma uniqueSorted_sound (l : list Q) (x : Q) :
  In x (uniqueSorted l) -> In x l.
Proof.
  intro H. apply (proj1 (In_sortAscending _ _)) in H.
  now destruct (uniqueValues_fresh _ _ _ H).
Qed.

Lemma uniqueSorted_complete (l : list Q) (x : Q) :
  In x l -> exists r, In r (uniqueSorted l) /\ x == r.
Proof.
  intro H. destruct (uniqueValues_complete l [] x H) as [[s [[] _]] | [r [Hr Heq]]].
  exists r. split; [|assumption]. now apply In_sortAscending.
Qed.

Lemma increasing_nth (u : list Q) :
  StronglySorted Qlt u ->
  forall i j, (i < j)%nat -> (j < List.length u)%nat -> nth i u 0 < nth j u 0.
Proof.
  induction 1 as [|a u Hs IH Ha]; intros i j Hij Hj; simpl in Hj; [lia|].
  destruct j as [|j]; [lia|]. simpl.
  destruct i as [|i].
  - rewrite Forall_forall in Ha. apply Ha, nth_In. lia.
  - apply IH; lia.
Qed.

(** ** The interval search *)

Lemma intervalLoop_spec (c : Q) (u : list Q) (n a idx : nat) :
  let r := intervalLoop c u (seq a n) idx in
  let last := (List.length u - 2)%nat in
  (exists i, (a <= i < a + n)%nat /\ inInterval c u i = true /\ r = i /\
             forall j, (a <= j < i)%nat -> inInterval c u j = false)
  \/ ((forall j, (a <= j < a + n)%nat -> inInterval c u j = false) /\
      ((a <= last < a + n)%nat -> r = last) /\
      (~ (a <= last < a + n)%nat -> r = idx)).
Proof.
  cbv zeta. revert a idx. induction n as [|n IH]; intros a idx.
  - right. simpl. split; [|split]; intros; trivial; lia.
  - change (seq a (S n)) with (a :: seq (S a) n).
    cbn [intervalLoop]. fold (inInterval c u a).
    destruct (inInterval c u a) eqn:E.
    + left. exists a. split; [lia|]. split; [assumption|]. split; [reflexivity|].
      intros j Hj. lia.
    + specialize (IH (S a) (if Nat.eqb a (List.length u - 2) then a else idx)).
      destruct IH as [[i [Hi [Hc [Hr Hmin]]]] | [Hnone [Hlast Hidx]]].
      * left. exists i. split; [lia|]. split; [assumption|]. split; [assumption|].
        intros j Hj. destruct (Nat.eq_dec j a) as [-> | Hne]; trivial.
        apply Hmin. lia.
      * right. split; [|split].
        -- intros j Hj. destruct (Nat.eq_dec j a) as [-> | Hne]; trivial.
           apply Hnone. lia.
        -- intro Hl. destruct (Nat.eqb_spec a (List.length u - 2)) as [Ha | Ha].
           ++ rewrite Hidx by lia. assumption.
           ++ apply Hlast. lia.
        -- intro Hl. destruct (Nat.eqb_spec a (List.length u - 2)) as [Ha | Ha].
           ++ exfalso. apply Hl. lia.
           ++ apply Hidx. lia.
Qed.

(** The index found is the first interval that contains [c], and the last
    interval when none does. *)
Lemma intervalIndex_spec (c : Q) (u : list Q) :
  (2 <= List.length u)%nat ->
  let i := intervalIndex c u in
  (i + 1 < List.length u)%nat /\
  ((inInterval c u i = true /\
    forall j, (j < i)%nat -> inInterval c u j = false)
   \/ (i = (List.length u - 2)%nat /\
       forall j, (j + 1 < List.length u)%nat -> inInterval c u j = false)).
Proof.
  intros Hlen. cbv zeta. unfold intervalIndex.
  destruct (intervalLoop_spec c u (List.length u - 1) 0 0)
    as [[i [Hi [Hc [Hr Hmin]]]] | [Hnone [Hlast _]]].
  - rewrite Hr. split; [lia|]. left. split; trivial.
    intros j Hj. apply Hmin. lia.
  - rewrite Hlast by lia. split; [lia|]. right. split; trivial.
    intros j Hj. apply Hnone. lia.
Qed.

Lemma inInterval_true (c : Q) (u : list Q) (i : nat) :
  inInterval c u i = true <-> nth i u 0 <= c /\ c <= nth (i + 1) u 0.
Proof.
  unfold inInterval. rewrite andb_true_iff, geb_true, Qle_bool_iff. tauto.
Qed.

(** A value between the first and the last element lies in one of the
    intervals. *)
Lemma interval_exists (c : Q) (u : list Q) :
  (2 <= List.length u)%nat ->
  nth 0 u 0 <= c -> c <= nth (List.length u - 1) u 0 ->
  exists j, (j + 1 < List.length u)%nat /\ inInterval c u j = true.
Proof.
  induction u as [|a u IH]; intros Hlen Hlo Hhi; [simpl in Hlen; lia|].
  destruct u as [|b u]; [simpl in Hlen; lia|].
  change (nth 0 (a :: b :: u) 0) with a in Hlo.
  replace (List.length (a :: b :: u) - 1)%nat with (S (List.length (b :: u) - 1))%nat in Hhi
    by (simpl; lia).
  change (nth (S (List.length (b :: u) - 1)) (a :: b :: u) 0)
    with (nth (List.length (b :: u) - 1) (b :: u) 0) in Hhi.
  destruct (Qlt_le_dec b c) as [Hbc | Hbc].
  - destruct u as [|d u].
    + simpl in Hhi. exfalso. apply (Qlt_not_le _ _ Hbc Hhi).
    + destruct IH as [j [Hj Hin]].
      * simpl. lia.
      * now apply Qlt_le_weak.
      * exact Hhi.
      * exists (S j). split; [simpl in *; lia|].
        apply inInterval_true in Hin. apply inInterval_true. exact Hin.
  - exists 0%nat. split; [simpl; lia|]. apply inInterval_true. simpl. split; assumption.
Qed.



(** ** The selected cell *)

Lemma findPoint_some (px py : Q) (pts : list HeightMapPoint) (p : HeightMapPoint) :
  findPoint px py pts = Some p -> In p pts /\ pt_x p == px /\ pt_y p == py.
Proof.
  unfold findPoint. intro H. apply find_some in H. destruct H as [Hin Hb].
  apply andb_true_iff in Hb. destruct Hb as [Hx Hy].
  apply Qeq_bool_iff in Hx. apply Qeq_bool_iff in Hy. auto.
Qed.

Lemma findSurroundingPoints_inv (x y : Q) (m : HeightMapData) (s : Surrounding) :
  findSurroundingPoints x y m = Some s ->
  let ux := uniqueSorted (map pt_x (points m)) in
  let uy := uniqueSorted (map pt_y (points m)) in
  let i := intervalIndex (clampX x m) ux in
  let j := intervalIndex (clampY y m) uy in
  (2 <= List.length ux)%nat /\ (2 <= List.length uy)%nat /\
  findPoint (nth i ux 0) (nth j uy 0) (points m) = Some (p00 s) /\
  findPoint (nth (i + 1) ux 0) (nth j uy 0) (points m) = Some (p10 s) /\
  findPoint (nth i ux 0) (nth (j + 1) uy 0) (points m) = Some (p01 s) /\
  findPoint (nth (i + 1) ux 0) (nth (j + 1) uy 0) (points m) = Some (p11 s).
Proof.
  cbv zeta. unfold findSurroundingPoints.
  set (ux := uniqueSorted (map pt_x (points m))).
  set (uy := uniqueSorted (map pt_y (points m))).
  destruct (Nat.ltb_spec (List.length ux) 2) as [Hx | Hx]; [discriminate|].
  destruct (Nat.ltb_spec (List.length uy) 2) as [Hy | Hy]; [discriminate|].
  simpl orb. cbv iota.
  destruct (intervalIndex_spec (clampX x m) ux Hx) as [Hi _].
  destruct (intervalIndex_spec (clampY y m) uy Hy) as [Hj _].
  rewrite (nth_error_nth' ux 0 Hi), (nth_error_nth' uy 0 Hj).
  destruct (findPoint _ _ _) as [a|]; [|discriminate].
  destruct (findPoint _ _ _) as [b|]; [|discriminate].
  destruct (findPoint _ _ _) as [c|]; [|discriminate].
  destruct (findPoint _ _ _) as [d|]; [|discriminate].
  intro H. injection H as <-. simpl. repeat split; trivial.
Qed.

(** The corners of a cell sit on two distinct columns and two distinct
    rows of the grid. *)
Lemma cell_shape (x y : Q) (m : HeightMapData) (s : Surrounding) :
  findSurroundingPoints x y m = Some s ->
  0 < xRange s /\ 0 < yRange s /\
  pt_x (p01 s) == pt_x (p00 s) /\ pt_x (p11 s) == pt_x (p10 s) /\
  pt_y (p10 s) == pt_y (p00 s) /\ pt_y (p11 s) == pt_y (p01 s).
Proof.
  intro H. destruct (findSurroundingPoints_inv _ _ _ _ H)
    as [Hx [Hy [H00 [H10 [H01 H11]]]]].
  apply findPoint_some in H00, H10, H01, H11.
  destruct H00 as [_ [X00 Y00]], H10 as [_ [X10 Y10]],
           H01 as [_ [X01 Y01]], H11 as [_ [X11 Y11]].
  destruct (intervalIndex_spec (clampX x m) _ Hx) as [Hi _].
  destruct (intervalIndex_spec (clampY y m) _ Hy) as [Hj _].
  pose proof (increasing_nth _ (uniqueSorted_increasing (map pt_x (points m)))
                _ _ (Nat.lt_add_pos_r 1 _ Nat.lt_0_1) Hi) as Lx.
  pose proof (increasing_nth _ (uniqueSorted_increasing (map pt_y (points m)))
                _ _ (Nat.lt_add_pos_r 1 _ Nat.lt_0_1) Hj) as Ly.
  unfold xRange, yRange.
  rewrite X00, X10, X01, X11, Y00, Y10, Y01, Y11.
  repeat split; try reflexivity; lra.
Qed.


Lemma bilinearInterpolate_cell (x y : Q) (m : HeightMapData) (s : Surrounding) :
  findSurroundingPoints x y m = Some s ->
  bilinearInterpolate x y m = Some (bilinear s (xWeightAt s x) (yWeightAt s y)).
Proof.
  intro H. destruct (cell_shape _ _ _ _ H) as [Hx [Hy _]].
  unfold bilinearInterpolate. rewrite H.
  assert (Ex : Qeq_bool (pt_x (p00 s)) (pt_x (p10 s)) = false).
  { apply Qeq_bool_false. unfold xRange in Hx. lra. }
  rewrite Ex. simpl andb. cbv iota.
  fold (xRange s) (yRange s).
  rewrite (proj2 (gtb_true _ _) Hx), (proj2 (gtb_true _ _) Hy).
  reflexivity.
Qed.




(** ** The nearest edge cell *)

Lemma first_interval_selected (c : Q) (u : list Q) :
  StronglySorted Qlt u -> (2 <= List.length u)%nat ->
  c == nth 0 u 0 -> intervalIndex c u = 0%nat.
Proof.
  intros Hs Hlen Hc.
  assert (H0 : inInterval c u 0 = true).
  { apply inInterval_true. rewrite Hc. split; [lra|].
    apply Qlt_le_weak, increasing_nth; trivial; simpl; lia. }
  destruct (intervalIndex_spec c u Hlen) as [_ [[_ Hmin] | [_ Hnone]]].
  - destruct (intervalIndex c u) as [|i]; trivial.
    rewrite Hmin in H0 by lia. discriminate.
  - rewrite Hnone in H0 by lia. discriminate.
Qed.

Lemma last_interval_selected (c : Q) (u : list Q) :
  StronglySorted Qlt u -> (2 <= List.length u)%nat ->
  c == nth (List.length u - 1) u 0 ->
  intervalIndex c u = (List.length u - 2)%nat.
Proof.
  intros Hs Hlen Hc.
  destruct (intervalIndex_spec c u Hlen) as [Hi [[Hin _] | [E _]]]; trivial.
  apply inInterval_true in Hin. destruct Hin as [_ Hup].
  destruct (Nat.eq_dec (intervalIndex c u) (List.length u - 2)) as [E | NE]; trivial.
  exfalso.
  pose proof (increasing_nth u Hs (intervalIndex c u + 1) (List.length u - 1)
                ltac:(lia) ltac:(lia)).
  lra.
Qed.

Lemma clamp_below (lo hi x : Q) :
  lo <= hi -> x <= lo -> Qmax lo (Qmin hi x) == lo.
Proof.
  intros H1 H2. rewrite (Q.min_r hi x) by lra. now apply Q.max_l.
Qed.

Lemma clamp_above (lo hi x : Q) :
  lo <= hi -> hi <= x -> Qmax lo (Qmin hi x) == hi.
Proof.
  intros H1 H2. rewrite (Q.min_l hi x) by lra. now apply Q.max_r.
Qed.

(** When the bounds are the extent of the samples, a query at or beyond
    an edge selects the first or the last column of cells: the nearest. *)
Lemma nearest_edge_column (m : HeightMapData) (x : Q) :
  let ux := uniqueSorted (map pt_x (points m)) in
  (2 <= List.length ux)%nat ->
  minX (bounds m) == nth 0 ux 0 ->
  maxX (bounds m) == nth (List.length ux - 1) ux 0 ->
  (x <= minX (bounds m) -> intervalIndex (clampX x m) ux = 0%nat) /\
  (maxX (bounds m) <= x ->
   intervalIndex (clampX x m) ux = (List.length ux - 2)%nat).
Proof.
  intros ux Hlen Hlo Hhi.
  pose proof (uniqueSorted_increasing (map pt_x (points m))) as Hs. fold ux in Hs.
  assert (Hb : minX (bounds m) <= maxX (bounds m)).
  { rewrite Hlo, Hhi. apply Qlt_le_weak, increasing_nth; trivial; lia. }
  split; intro Hx.
  - apply first_interval_selected; trivial.
    unfold clampX. rewrite clamp_below; trivial.
  - apply last_interval_selected; trivial.
    unfold clampX. rewrite clamp_above; trivial.
Qed.

(** The same for the rows. *)
Lemma nearest_edge_row (m : HeightMapData) (y : Q) :
  let uy := uniqueSorted (map pt_y (points m)) in
  (2 <= List.length uy)%nat ->
  minY (bounds m) == nth 0 uy 0 ->
  maxY (bounds m) == nth (List.length uy - 1) uy 0 ->
  (y <= minY (bounds m) -> intervalIndex (clampY y m) uy = 0%nat) /\
  (maxY (bounds m) <= y ->
   intervalIndex (clampY y m) uy = (List.length uy - 2)%nat).
Proof.
  intros uy Hlen Hlo Hhi.
  pose proof (uniqueSorted_increasing (map pt_y (points m))) as Hs. fold uy in Hs.
  assert (Hb : minY (bounds m) <= maxY (bounds m)).
  { rewrite Hlo, Hhi. apply Qlt_le_weak, increasing_nth; trivial; lia. }
  split; intro Hy.
  - apply first_interval_selected; trivial.
    unfold clampY. rewrite clamp_below; trivial.
  - apply last_interval_selected; trivial.
    unfold clampY. rewrite clamp_above; trivial.
Qed.

(** ** The offset *)

(** C2.  [getZOffset] is total: it is 0 without a map, with an empty list
    of points and when the interpolation finds no cell; otherwise it is the
    interpolated value. *)
Theorem getZOffset_cases (x y : Q) :
  getZOffset x y None = 0 /\
  (forall m, points m = [] -> getZOffset x y (Some m) = 0) /\
  (forall m, bilinearInterpolate x y m = None -> getZOffset x y (Some m) = 0) /\
  (forall m z, points m <> [] -> bilinearInterpolate x y m = Some z ->
               getZOffset x y (Some m) = z).
Proof.
  unfold getZOffset. repeat split.
  - intros m ->. reflexivity.
  - intros m ->. now destruct (points m).
  - intros m z Hne ->. destruct (points m); [contradiction | reflexivity].
Qed.

(** ** Queries at a stored sample *)

Lemma clamp_inside (lo hi x : Q) :
  lo <= x -> x <= hi -> Qmax lo (Qmin hi x) == x.
Proof.
  intros H1 H2. rewrite (Q.min_r hi x H2). now apply Q.max_r.
Qed.

Lemma inInterval_compat (c c' : Q) (u : list Q) (i : nat) :
  c == c' -> inInterval c u i = inInterval c' u i.
Proof.
  intro E. apply eq_true_iff_eq. rewrite !inInterval_true, E. tauto.
Qed.

(** A grid coordinate is an end of the interval chosen for it. *)
Lemma sample_on_interval_end (c r : Q) (u : list Q) :
  StronglySorted Qlt u -> (2 <= List.length u)%nat ->
  In r u -> c == r ->
  let i := intervalIndex c u in
  r == nth i u 0 \/ r == nth (i + 1) u 0.
Proof.
  intros Hs Hlen Hin Hc i.
  destruct (In_nth u r 0 Hin) as [k [Hk Ek]].
  destruct (intervalIndex_spec c u Hlen) as [Hi [[Hint _] | [_ Hnone]]]; fold i in Hi.
  - fold i in Hint. apply inInterval_true in Hint. destruct Hint as [L1 L2].
    rewrite Hc, <- Ek in L1, L2. rewrite <- Ek.
    destruct (Nat.lt_trichotomy k i) as [Lt | [-> | Gt]].
    + pose proof (increasing_nth u Hs k i Lt ltac:(lia)). lra.
    + left. reflexivity.
    + destruct (Nat.eq_dec k (i + 1)) as [-> | Ne]; [right; reflexivity|].
      pose proof (increasing_nth u Hs (i + 1) k ltac:(lia) Hk). lra.
  - exfalso. destruct (Nat.eq_dec (k + 1) (List.length u)) as [Last | NotLast].
    + assert (Hf := Hnone (k - 1)%nat ltac:(lia)).
      assert (Ht : inInterval c u (k - 1) = true).
      { apply inInterval_true. replace (k - 1 + 1)%nat with k by lia.
        rewrite Hc, Ek. split; [|lra].
        rewrite <- Ek. apply Qlt_le_weak, increasing_nth; trivial; lia. }
      congruence.
    + assert (Hf := Hnone k ltac:(lia)).
      assert (Ht : inInterval c u k = true).
      { apply inInterval_true. rewrite Hc, Ek. split; [lra|].
        rewrite <- Ek. apply Qlt_le_weak, increasing_nth; trivial; lia. }
      congruence.
Qed.

Lemma bilinear_corners (s : Surrounding) :
  bilinear s 0 0 == pt_z (p00 s) /\ bilinear s 1 0 == pt_z (p10 s) /\
  bilinear s 0 1 == pt_z (p01 s) /\ bilinear s 1 1 == pt_z (p11 s).
Proof. unfold bilinear. repeat split; ring. Qed.

Lemma bilinear_compat (s : Surrounding) (a a' b b' : Q) :
  a == a' -> b == b' -> bilinear s a b == bilinear s a' b'.
Proof. intros Ea Eb. unfold bilinear. now rewrite Ea, Eb. Qed.

Lemma weight_ends (a b x : Q) :
  0 < b - a ->
  (x == a -> (x - a) / (b - a) == 0) /\ (x == b -> (x - a) / (b - a) == 1).
Proof.
  intro H. split; intro E; rewrite E; field; lra.
Qed.

(** C8, as the code has it.  A query at the coordinates of a stored sample
    returns that sample's Z when the sample lies within the bounds, the
    cell search succeeds, and the stored points that share the sample's
    coordinates share its Z. *)
Theorem interpolate_exact_at_sample
    (m : HeightMapData) (p : HeightMapPoint) (s : Surrounding) :
  In p (points m) ->
  isWithinBounds (pt_x p) (pt_y p) m = true ->
  findSurroundingPoints (pt_x p) (pt_y p) m = Some s ->
  (forall q, In q (points m) -> pt_x q == pt_x p -> pt_y q == pt_y p ->
             pt_z q == pt_z p) ->
  exists z, bilinearInterpolate (pt_x p) (pt_y p) m = Some z /\ z == pt_z p.
Proof.
  intros Hp Hb Hs Huniq.
  exists (bilinear s (xWeightAt s (pt_x p)) (yWeightAt s (pt_y p))).
  split; [now apply bilinearInterpolate_cell|].
  destruct (cell_shape _ _ _ _ Hs) as [Rx [Ry [X01 [X11 [Y10 Y11]]]]].
  destruct (findSurroundingPoints_inv _ _ _ _ Hs)
    as [Lx [Ly [H00 [H10 [H01 H11]]]]].
  apply findPoint_some in H00, H10, H01, H11.
  destruct H00 as [I00 [X00 Y00]], H10 as [I10 [X10 _]],
           H01 as [I01 [_ Y01]], H11 as [I11 _].
  unfold isWithinBounds in Hb. rewrite !andb_true_iff in Hb.
  destruct Hb as [[[B1 B2] B3] B4].
  apply geb_true in B1, B3. apply Qle_bool_iff in B2, B4.
  destruct (uniqueSorted_complete (map pt_x (points m)) (pt_x p)
              (in_map pt_x _ _ Hp)) as [rx [Irx Erx]].
  destruct (uniqueSorted_complete (map pt_y (points m)) (pt_y p)
              (in_map pt_y _ _ Hp)) as [ry [Iry Ery]].
  assert (Cx : clampX (pt_x p) m == rx).
  { unfold clampX. rewrite clamp_inside; assumption. }
  assert (Cy : clampY (pt_y p) m == ry).
  { unfold clampY. rewrite clamp_inside; assumption. }
  pose proof (sample_on_interval_end _ _ _
                (uniqueSorted_increasing _) Lx Irx Cx) as Ex.
  pose proof (sample_on_interval_end _ _ _
                (uniqueSorted_increasing _) Ly Iry Cy) as Ey.
  cbv zeta in Ex, Ey. rewrite <- X00, <- X10, <- Erx in Ex.
  rewrite <- Y00, <- Y01, <- Ery in Ey.
  destruct (weight_ends (pt_x (p00 s)) (pt_x (p10 s)) (pt_x p) Rx) as [Wx0 Wx1].
  destruct (weight_ends (pt_y (p00 s)) (pt_y (p01 s)) (pt_y p) Ry) as [Wy0 Wy1].
  destruct (bilinear_corners s) as [C00 [C10 [C01 C11]]].
  fold (xRange s) in Wx0, Wx1. fold (yRange s) in Wy0, Wy1.
  fold (xWeightAt s (pt_x p)) in Wx0, Wx1. fold (yWeightAt s (pt_y p)) in Wy0, Wy1.
  destruct Ex as [Ex | Ex], Ey as [Ey | Ey].
  - rewrite (bilinear_compat s _ 0 _ 0 (Wx0 Ex) (Wy0 Ey)), C00.
    apply Huniq; trivial; symmetry; assumption.
  - rewrite (bilinear_compat s _ 0 _ 1 (Wx0 Ex) (Wy1 Ey)), C01.
    apply Huniq; trivial; [rewrite X01|]; symmetry; assumption.
  - rewrite (bilinear_compat s _ 1 _ 0 (Wx1 Ex) (Wy0 Ey)), C10.
    apply Huniq; trivial; [|rewrite Y10]; symmetry; assumption.
  - rewrite (bilinear_compat s _ 1 _ 1 (Wx1 Ex) (Wy1 Ey)), C11.
    apply Huniq; trivial; [rewrite X11 | rewrite Y11]; symmetry; assumption.
Qed.

(** ** The probe grid *)

Lemma length_arrayFrom (n : Z) (f : Z -> Q) :
  List.length (arrayFrom n f) = Z.to_nat n.
Proof. unfold arrayFrom. now rewrite length_map, length_seq. Qed.

Lemma nth_error_arrayFrom (n : Z) (f : Z -> Q) (i : nat) :
  (i < Z.to_nat n)%nat -> nth_error (arrayFrom n f) i = Some (f (Z.of_nat i)).
Proof.
  intro H. unfold arrayFrom. rewrite nth_error_map.
  rewrite nth_error_nth' with (d := 0%nat) by now rewrite length_seq.
  rewrite seq_nth by assumption. reflexivity.
Qed.

Lemma ltb_compat (a b c : Q) : a == b -> ltb a c = ltb b c.
Proof.
  intro E. apply eq_true_iff_eq. rewrite !ltb_true, E. tauto.
Qed.

Lemma roundTo_compat (d : nat) (a b : Q) : a == b -> roundTo d a = roundTo d b.
Proof.
  intro E. unfold roundTo, toFixedDigits, nearestInt.
  rewrite (ltb_compat a b 0 E).
  assert (F : Qfloor (Qabs a * inject_Z (Z.pos (tenPow d)) + (1 # 2))
            = Qfloor (Qabs b * inject_Z (Z.pos (tenPow d)) + (1 # 2)))
    by (apply Qfloor_comp; now rewrite E).
  now rewrite F.
Qed.

Lemma lastOf_app (l : list Q) (a : Q) : lastOf (l ++ [a]) = Some a.
Proof.
  unfold lastOf. rewrite length_app. simpl.
  replace (List.length l + 1 - 1)%nat with (List.length l) by lia.
  rewrite nth_error_app2 by lia. now rewrite Nat.sub_diag.
Qed.

Lemma spacing_steps_reach (lo hi s : Q) :
  0 < s -> hi <= lo + inject_Z (Qceiling ((hi - lo) / s)) * s.
Proof.
  intro Hs.
  pose proof (Qle_ceiling ((hi - lo) / s)) as C.
  assert (E : hi - lo == (hi - lo) / s * s) by (field; lra).
  assert ((hi - lo) / s * s <= inject_Z (Qceiling ((hi - lo) / s)) * s)
    by (apply Qmult_le_compat_r; lra).
  lra.
Qed.

Lemma spacing_count_positive (lo hi s : Q) :
  lo <= hi -> 0 < s -> (0 <= Qceiling ((hi - lo) / s))%Z.
Proof.
  intros Hl Hs.
  assert (0 <= (hi - lo) / s).
  { apply Qle_shift_div_l; lra. }
  change 0%Z with (Qceiling 0). now apply Qceiling_resp_le.
Qed.

Lemma generatedAxis_last (lo hi s : Q) :
  lo <= hi -> 0 < s ->
  lastOf (generatedAxis lo hi s) = Some (roundTo 3 hi).
Proof.
  intros Hl Hs. pose proof (spacing_count_positive lo hi s Hl Hs) as Hc.
  unfold lastOf, generatedAxis. rewrite length_arrayFrom.
  rewrite nth_error_arrayFrom by lia. f_equal.
  apply roundTo_compat. apply Q.min_r.
  replace (Z.of_nat (Z.to_nat (Qceiling ((hi - lo) / s) + 1) - 1))
    with (Qceiling ((hi - lo) / s)) by lia.
  now apply spacing_steps_reach.
Qed.

(** One axis of the spacing mode: the generated coordinates, then the far
    edge unless the last generated coordinate equals it; the far edge is
    the last coordinate either way. *)
Lemma spacingAxis_spec (lo hi s : Q) :
  lo <= hi -> 0 < s ->
  exists xs last,
    spacingAxis lo hi s = Some xs /\
    xs = (if Qeq_bool (roundTo 3 hi) hi then generatedAxis lo hi s
          else generatedAxis lo hi s ++ [hi]) /\
    lastOf xs = Some last /\ last == hi.
Proof.
  intros Hl Hs. pose proof (generatedAxis_last lo hi s Hl Hs) as HL.
  unfold spacingAxis, spacingCount.
  assert (E0 : Qeq_bool s 0 = false) by (apply Qeq_bool_false; lra).
  rewrite E0. fold (generatedAxis lo hi s).
  unfold lastOf in HL. rewrite HL. unfold neqb.
  destruct (Qeq_bool (roundTo 3 hi) hi) eqn:E; simpl.
  - exists (generatedAxis lo hi s), (roundTo 3 hi).
    split; [reflexivity|]. split; [reflexivity|].
    split; [exact HL | now apply Qeq_bool_iff].
  - exists (generatedAxis lo hi s ++ [hi]), hi.
    split; [reflexivity|]. split; [reflexivity|].
    split; [apply lastOf_app | reflexivity].
Qed.

Lemma In_combine_seq (y : Q) (ys : list Q) (a : nat) :
  In y ys -> exists i, In (i, y) (combine (seq a (List.length ys)) ys).
Proof.
  revert a. induction ys as [|b ys IH]; intros a; simpl; [tauto|].
  intros [-> | H].
  - exists a. now left.
  - destruct (IH (S a) H) as [i Hi]. exists i. now right.
Qed.

Lemma In_gridRow (xs : list Q) (i : nat) (y : Q) (pt : ProbeGridPoint) :
  In pt (gridRow xs i y) <-> In (grid_x pt) xs /\ grid_y pt = y.
Proof.
  unfold gridRow. rewrite in_map_iff. split.
  - intros [x [<- Hx]]. simpl. split; trivial.
    destruct (Nat.eqb (i mod 2) 0); trivial. now apply in_rev.
  - intros [Hx <-]. exists (grid_x pt). split; [now destruct pt|].
    destruct (Nat.eqb (i mod 2) 0); trivial. now apply in_rev in Hx.
Qed.

Lemma In_grid (xs ys : list Q) (pt : ProbeGridPoint) :
  In pt (List.concat (gridRows xs ys)) <-> In (grid_x pt) xs /\ In (grid_y pt) ys.
Proof.
  rewrite in_concat. unfold gridRows. split.
  - intros [row [Hrow Hpt]]. apply in_map_iff in Hrow.
    destruct Hrow as [[i y] [<- Hiy]]. simpl in Hpt.
    apply In_gridRow in Hpt. destruct Hpt as [Hx <-].
    split; trivial. now apply in_combine_r in Hiy.
  - intros [Hx Hy]. destruct (In_combine_seq _ _ 0 Hy) as [i Hi].
    exists (gridRow xs i (grid_y pt)). split.
    + apply in_map_iff. exists (i, grid_y pt). now split.
    + apply In_gridRow. now split.
Qed.



(** ** The zigzag order *)

Lemma toFixedDigits_nonneg (d : nat) (x : Q) : (0 <= toFixedDigits d x)%Z.
Proof.
  unfold toFixedDigits, nearestInt.
  change 0%Z with (Qfloor 0). apply Qfloor_resp_le.
  pose proof (Qabs_nonneg x).
  assert (0 <= Qabs x * inject_Z (Z.pos (tenPow d))).
  { apply Qmult_le_0_compat; trivial. now rewrite <- (Zle_Qle 0). }
  lra.
Qed.

Lemma toFixedDigits_monotone (d : nat) (a b : Q) :
  Qabs a <= Qabs b -> (toFixedDigits d a <= toFixedDigits d b)%Z.
Proof.
  intro H. unfold toFixedDigits, nearestInt. apply Qfloor_resp_le.
  assert (Qabs a * inject_Z (Z.pos (tenPow d)) <= Qabs b * inject_Z (Z.pos (tenPow d))).
  { apply Qmult_le_compat_r; trivial. now rewrite <- (Zle_Qle 0). }
  lra.
Qed.

Lemma Qle_same_den (p q : Z) (t : positive) : (p <= q)%Z -> (p # t) <= (q # t).
Proof.
  intro H. unfold Qle. simpl. apply Z.mul_le_mono_nonneg_r; [lia | exact H].
Qed.

(** Rounding to [d] decimals preserves the order. *)
Lemma roundTo_monotone (d : nat) (a b : Q) : a <= b -> roundTo d a <= roundTo d b.
Proof.
  intro H. unfold roundTo.
  pose proof (toFixedDigits_nonneg d a) as Na.
  pose proof (toFixedDigits_nonneg d b) as Nb.
  destruct (ltb a 0) eqn:Ea, (ltb b 0) eqn:Eb.
  - apply ltb_true in Ea, Eb. apply Qle_same_den.
    assert ((toFixedDigits d b <= toFixedDigits d a)%Z); [|lia].
    apply toFixedDigits_monotone.
    rewrite (Qabs_neg a), (Qabs_neg b); lra.
  - apply Qle_same_den. lia.
  - apply ltb_true in Eb. unfold ltb in Ea. apply negb_false_iff, Qle_bool_iff in Ea.
    exfalso. lra.
  - unfold ltb in Ea, Eb. apply negb_false_iff, Qle_bool_iff in Ea, Eb.
    apply Qle_same_den, toFixedDigits_monotone.
    rewrite (Qabs_pos a), (Qabs_pos b); lra.
Qed.

Lemma nth_error_arrayFrom_inv (n : Z) (f : Z -> Q) (i : nat) (a : Q) :
  nth_error (arrayFrom n f) i = Some a -> a = f (Z.of_nat i).
Proof.
  intro H. assert (Hi : (i < Z.to_nat n)%nat).
  { rewrite <- (length_arrayFrom n f). apply nth_error_Some. congruence. }
  rewrite nth_error_arrayFrom in H by assumption. congruence.
Qed.

Lemma arrayFrom_nonDecreasing (n : Z) (f : Z -> Q) :
  (forall i j, (0 <= i <= j)%Z -> f i <= f j) -> nonDecreasing (arrayFrom n f).
Proof.
  intros Hf i j a b Hij Ha Hb.
  apply nth_error_arrayFrom_inv in Ha, Hb. subst. apply Hf. lia.
Qed.

Lemma countAxis_nonDecreasing (lo hi : Q) (pointCount : Z) :
  lo <= hi -> nonDecreasing (countAxis lo hi pointCount).
Proof.
  intro H. unfold countAxis. apply arrayFrom_nonDecreasing.
  intros i j Hij. apply roundTo_monotone.
  assert (Hs : 0 <= (if (1 <? pointCount)%Z
                     then (hi - lo) / inject_Z (pointCount - 1) else 0)).
  { destruct (Z.ltb_spec 1 pointCount) as [P | P]; [|lra].
    apply Qle_shift_div_l; [|lra]. rewrite <- (Zlt_Qlt 0). lia. }
  set (step := if (1 <? pointCount)%Z
               then (hi - lo) / inject_Z (pointCount - 1) else 0) in *.
  assert (inject_Z i * step <= inject_Z j * step).
  { apply Qmult_le_compat_r; trivial. rewrite <- Zle_Qle. lia. }
  lra.
Qed.

Lemma generatedAxis_nonDecreasing (lo hi s : Q) :
  0 < s -> nonDecreasing (generatedAxis lo hi s).
Proof.
  intro H. unfold generatedAxis. apply arrayFrom_nonDecreasing.
  intros i j Hij. apply roundTo_monotone.
  assert (inject_Z i * s <= inject_Z j * s).
  { apply Qmult_le_compat_r; [|lra]. rewrite <- Zle_Qle. lia. }
  apply Q.min_le_compat_r. lra.
Qed.

Lemma nonDecreasing_snoc (l : list Q) (last a : Q) :
  nonDecreasing l -> lastOf l = Some last -> last <= a ->
  nonDecreasing (l ++ [a]).
Proof.
  intros Hl Hlast Hle i j x y Hij Hx Hy.
  assert (Hlen : (0 < List.length l)%nat).
  { destruct l; [discriminate | simpl; lia]. }
  destruct (Nat.lt_ge_cases j (List.length l)) as [Hj | Hj].
  - rewrite nth_error_app1 in Hx, Hy by lia. now apply (Hl i j).
  - assert (Ey : y = a).
    { rewrite nth_error_app2 in Hy by lia.
      destruct (j - List.length l)%nat as [|k]; simpl in Hy; [congruence|].
      destruct k; discriminate. }
    subst y.
    destruct (Nat.lt_ge_cases i (List.length l)) as [Hi | Hi].
    + rewrite nth_error_app1 in Hx by lia.
      apply Qle_trans with last; trivial.
      apply (Hl i (List.length l - 1)%nat); trivial. lia.
    + rewrite nth_error_app2 in Hx by lia.
      destruct (i - List.length l)%nat as [|k]; simpl in Hx;
        [injection Hx as <-; lra|]. destruct k; discriminate.
Qed.

Lemma spacingAxis_nonDecreasing (lo hi s : Q) :
  lo <= hi -> 0 < s -> roundTo 3 hi <= hi ->
  exists xs, spacingAxis lo hi s = Some xs /\ nonDecreasing xs.
Proof.
  intros Hl Hs Hr.
  destruct (spacingAxis_spec lo hi s Hl Hs) as [xs [last [E [Exs _]]]].
  exists xs. split; trivial. rewrite Exs.
  destruct (Qeq_bool (roundTo 3 hi) hi).
  - now apply generatedAxis_nonDecreasing.
  - apply nonDecreasing_snoc with (roundTo 3 hi); trivial.
    + now apply generatedAxis_nonDecreasing.
    + now apply generatedAxis_last.
Qed.

Lemma nonDecreasing_rev (l : list Q) : nonDecreasing l -> nonIncreasing (rev l).
Proof.
  intros Hl i j a b Hij Ha Hb.
  rewrite nth_error_rev in Ha, Hb.
  destruct (Nat.ltb_spec i (List.length l)); [|discriminate].
  destruct (Nat.ltb_spec j (List.length l)); [|discriminate].
  apply (Hl (List.length l - S j) (List.length l - S i))%nat; trivial. lia.
Qed.

Lemma nth_error_combine_seq (ys : list Q) (a i : nat) (iy : nat * Q) :
  nth_error (combine (seq a (List.length ys)) ys) i = Some iy ->
  fst iy = (a + i)%nat /\ nth_error ys i = Some (snd iy).
Proof.
  revert a i. induction ys as [|y ys IH]; intros a i; simpl.
  - destruct i; discriminate.
  - destruct i as [|i]; simpl.
    + intro H. injection H as <-. simpl. split; [lia | reflexivity].
    + intro H. destruct (IH (S a) i H) as [H1 H2]. split; [lia | assumption].
Qed.

Lemma gridRows_row (xs ys : list Q) (i : nat) (row : list ProbeGridPoint) :
  nth_error (gridRows xs ys) i = Some row ->
  exists y, nth_error ys i = Some y /\ row = gridRow xs i y.
Proof.
  unfold gridRows. rewrite nth_error_map.
  destruct (nth_error (combine (seq 0 (List.length ys)) ys) i) as [iy|] eqn:E;
    [|discriminate].
  destruct (nth_error_combine_seq ys 0 i iy E) as [H1 H2].
  simpl. intro H. injection H as <-. exists (snd iy). split; trivial.
  now rewrite H1.
Qed.

Lemma gridRow_x (xs : list Q) (i : nat) (y : Q) :
  map grid_x (gridRow xs i y) = if Nat.eqb (i mod 2) 0 then xs else rev xs.
Proof.
  unfold gridRow. rewrite map_map. simpl. apply map_id.
Qed.

(** C7, as the code has it.  For a rectangle with [min <= max] on both
    axes, in count mode, and in spacing mode with a positive spacing when
    rounding to 3 decimals does not push the far edges upwards: the output
    is the succession of rows, one for each y in non-decreasing order,
    whose x-coordinates are non-decreasing on an even row index and
    non-increasing on an odd one. *)
Theorem zigzag_rows
    (minX maxX minY maxY gridSpacing : Q) (usePointCount : bool)
    (pointCountX pointCountY : Z) :
  minX <= maxX -> minY <= maxY ->
  (usePointCount = false ->
   0 < gridSpacing /\ roundTo 3 maxX <= maxX /\ roundTo 3 maxY <= maxY) ->
  exists xs ys,
    calculateProbeGrid minX maxX minY maxY gridSpacing usePointCount
      pointCountX pointCountY = Some (List.concat (gridRows xs ys)) /\
    List.length (gridRows xs ys) = List.length ys /\
    nonDecreasing ys /\
    forall i row,
      nth_error (gridRows xs ys) i = Some row ->
      (exists y, nth_error ys i = Some y /\
                 forall pt, In pt row -> grid_y pt = y) /\
      ((i mod 2 = 0)%nat -> nonDecreasing (map grid_x row)) /\
      ((i mod 2 <> 0)%nat -> nonIncreasing (map grid_x row)).
Proof.
  intros Hx Hy Hs.
  assert (A : exists xs ys,
             calculateProbeGrid minX maxX minY maxY gridSpacing usePointCount
               pointCountX pointCountY = Some (List.concat (gridRows xs ys)) /\
             nonDecreasing xs /\ nonDecreasing ys).
  { unfold calculateProbeGrid. destruct usePointCount.
    - exists (countAxis minX maxX pointCountX), (countAxis minY maxY pointCountY).
      split; [reflexivity|]. split; now apply countAxis_nonDecreasing.
    - destruct (Hs eq_refl) as [Hg [Rx Ry]].
      destruct (spacingAxis_nonDecreasing minX maxX gridSpacing Hx Hg Rx) as [xs [Ex Sx]].
      destruct (spacingAxis_nonDecreasing minY maxY gridSpacing Hy Hg Ry) as [ys [Ey Sy]].
      exists xs, ys. rewrite Ex, Ey. auto. }
  destruct A as [xs [ys [E [Sx Sy]]]]. exists xs, ys.
  split; [exact E|].
  split. { unfold gridRows. rewrite length_map, length_combine, length_seq. lia. }
  split; [exact Sy|].
  intros i row Hrow. destruct (gridRows_row xs ys i row Hrow) as [y [Hy' ->]].
  split; [|split].
  - exists y. split; trivial. intros pt Hpt. now apply In_gridRow in Hpt.
  - intro Hi. rewrite gridRow_x, Hi. exact Sx.
  - intro Hi. rewrite gridRow_x.
    destruct (Nat.eqb_spec (i mod 2) 0); [contradiction|].
    now apply nonDecreasing_rev.
Qed.

Lemma zigzag_rows_witness :
  exists xs ys,
    calculateProbeGrid 0 25 0 25 10 false 0 0 = Some (List.concat (gridRows xs ys)) /\
    List.length (gridRows xs ys) = List.length ys /\
    nonDecreasing ys.
Proof.
  destruct (zigzag_rows 0 25 0 25 10 false 0 0) as [xs [ys [H1 [H2 [H3 _]]]]].
  - discriminate.
  - discriminate.
  - intros _. split; [reflexivity|]. split; discriminate.
  - exists xs, ys. auto.
Defined.

(** Two grids whose row of index 0 is not in non-decreasing order.  An
    inverted rectangle in count mode: the step is negative and the row
    runs 10, 5, 0.  A far edge with four decimals in spacing mode: with
    [maxX = 1.0006] the last generated coordinate is 1.001, it differs
    from [maxX], which is pushed after it, and the row runs 0, 1, 1.001,
    1.0006. *)
Lemma zigzag_rows_out_of_order :
  (let xs := countAxis 10 0 3 in
   let ys := countAxis 0 10 2 in
   calculateProbeGrid 10 0 0 10 1 true 3 2 = Some (List.concat (gridRows xs ys)) /\
   nth_error (gridRows xs ys) 0 = Some (gridRow xs 0 (0 # 1000)) /\
   map grid_x (gridRow xs 0 (0 # 1000)) = [10000 # 1000; 5000 # 1000; 0 # 1000] /\
   ~ nonDecreasing [10000 # 1000; 5000 # 1000; 0 # 1000])
  /\
  (let xs := [0 # 1000; 1000 # 1000; 1001 # 1000; 10006 # 10000] in
   let ys := [0 # 1000; 1000 # 1000] in
   0 <= (10006 # 10000) /\ 0 <= 1 /\ 0 < 1 /\
   spacingAxis 0 (10006 # 10000) 1 = Some xs /\
   calculateProbeGrid 0 (10006 # 10000) 0 1 1 false 0 0
   = Some (List.concat (gridRows xs ys)) /\
   nth_error (gridRows xs ys) 0 = Some (gridRow xs 0 (0 # 1000)) /\
   map grid_x (gridRow xs 0 (0 # 1000)) = xs /\
   ~ nonDecreasing xs).
Proof.
  cbv zeta. split.
  - split; [vm_compute; reflexivity|]. split; [vm_compute; reflexivity|].
    split; [vm_compute; reflexivity|].
    intro H. specialize (H 0%nat 1%nat _ _ (Nat.le_succ_diag_r 0) eq_refl eq_refl).
    revert H. apply Qlt_not_le. reflexivity.
  - split; [discriminate|]. split; [discriminate|]. split; [reflexivity|].
    split; [vm_compute; reflexivity|]. split; [vm_compute; reflexivity|].
    split; [vm_compute; reflexivity|]. split; [vm_compute; reflexivity|].
    intro H. specialize (H 2%nat 3%nat _ _ (Nat.le_succ_diag_r 2) eq_refl eq_refl).
    revert H. apply Qlt_not_le. reflexivity.
Qed.

(* ------------------------------------------------------------------ *)
(** ** The line rewriter *)

Section LineRewriter.

Variable m : HeightMapData.
Variable o : TransformOptions.

Lemma processLines_app (st : LoopState) (a b : list string) :
  processLines m o st (a ++ b) =
  match processLines m o st a with
  | Some st' => processLines m o st' b
  | None => None
  end.
Proof.
  revert st. induction a as [|l a IH]; intro st; simpl; trivial.
  destruct (processLine m o st l); trivial.
Qed.

(** The two mode-switch branches of the loop body. *)
Lemma processLine_mode_switch (st : LoopState) (line : string) :
  isBlankOrComment line = false ->
  matchesIgnoreCase "G90" (trim line) = true \/
  matchesIgnoreCase "G91" (trim line) = true ->
  processLine m o st line =
  Some (mkState (transformedLines st ++ [line]) (warnings st)
          (currentX st) (currentY st) (currentZ st)
          (matchesIgnoreCase "G90" (trim line)) (outsideBoundsWarned st)).
Proof.
  intros Hb Hm. unfold processLine. unfold isBlankOrComment in Hb.
  cbv zeta in Hb. rewrite Hb.
  destruct (matchesIgnoreCase "G90" (trim line)) eqn:E90; [reflexivity|].
  destruct Hm as [Hm | Hm]; [discriminate|]. rewrite Hm. reflexivity.
Qed.

(** C10.  A line that is neither blank nor a comment and whose trimmed
    text contains G90 or G91, in any case, only switches the mode: it is
    pushed unchanged, the flag becomes absolute when G90 occurs and
    incremental otherwise, and the tracked position, the warnings and the
    warned flag stay as they were, whatever else the line carries. *)
Theorem mode_switch_only_switches (st : LoopState) (line : string) :
  isBlankOrComment line = false ->
  matchesIgnoreCase "G90" (trim line) = true \/
  matchesIgnoreCase "G91" (trim line) = true ->
  exists st',
    processLine m o st line = Some st' /\
    transformedLines st' = transformedLines st ++ [line] /\
    absoluteMode st' = matchesIgnoreCase "G90" (trim line) /\
    currentX st' = currentX st /\ currentY st' = currentY st /\
    currentZ st' = currentZ st /\
    warnings st' = warnings st /\
    outsideBoundsWarned st' = outsideBoundsWarned st.
Proof.
  intros Hb Hm. rewrite (processLine_mode_switch st line Hb Hm).
  eexists. split; [reflexivity|]. simpl. repeat split.
Qed.

(** In incremental mode a line that is not an absolute-mode switch is
    pushed unchanged and leaves the rest of the state alone. *)
Lemma incremental_line (st : LoopState) (line : string) :
  absoluteMode st = false -> isAbsoluteSwitch line = false ->
  processLine m o st line = Some (pushLines st [line]).
Proof.
  intros Ha Hs. unfold processLine. unfold isAbsoluteSwitch, isBlankOrComment in Hs.
  cbv zeta in Hs.
  destruct (String.eqb (trim line) "" || startsWith ";" (trim line)
            || startsWith "(" (trim line)); [reflexivity|].
  simpl in Hs. rewrite Hs.
  destruct (matchesIgnoreCase "G91" (trim line)).
  - unfold pushLines, setAbsoluteMode. simpl. now rewrite Ha.
  - now rewrite Ha.
Qed.

Lemma incremental_lines (ls : list string) (st : LoopState) :
  absoluteMode st = false ->
  (forall l, In l ls -> isAbsoluteSwitch l = false) ->
  processLines m o st ls = Some (pushLines st ls).
Proof.
  revert st. induction ls as [|l ls IH]; intros st Ha Hs; simpl.
  - unfold pushLines. rewrite app_nil_r. now destruct st.
  - rewrite (incremental_line st l Ha (Hs l (or_introl eq_refl))).
    rewrite (IH (pushLines st [l]) Ha (fun x H => Hs x (or_intror H))).
    unfold pushLines. simpl. now rewrite <- app_assoc.
Qed.

Lemma parse_motion (line : string) (cx cy cz : Q) :
  let p := parseGcodeLine line cx cy cz in
  isMotion p = true ->
  move_x p = Some (orElse (wordValue "X" line) cx) /\
  move_y p = Some (orElse (wordValue "Y" line) cy) /\
  move_z p = Some (orElse (wordValue "Z" line) cz) /\
  hasX p = isSome (wordValue "X" line) /\
  hasY p = isSome (wordValue "Y" line) /\
  hasZ p = isSome (wordValue "Z" line).
Proof.
  cbv zeta. unfold parseGcodeLine, isMotion, wordValue.
  destruct (negb (moveCommand "0" (toUpperCase (trim line)))
            && negb (moveCommand "1" (toUpperCase (trim line)))); simpl.
  - discriminate.
  - intros _. repeat split;
      match goal with
      | |- context [matchWord ?l ?b ?t] => now destruct (matchWord l b t)
      end.
Qed.

Lemma parse_not_motion (line : string) (cx cy cz : Q) :
  let p := parseGcodeLine line cx cy cz in
  isMotion p = false ->
  type p = other /\ hasX p = false /\ hasY p = false.
Proof.
  cbv zeta. unfold parseGcodeLine, isMotion.
  destruct (negb (moveCommand "0" (toUpperCase (trim line)))
            && negb (moveCommand "1" (toUpperCase (trim line)))); simpl.
  - auto.
  - destruct (moveCommand "0" (toUpperCase (trim line))); discriminate.
Qed.

Lemma checkBounds_fields (p : ParsedMove) (st : LoopState) :
  let st1 := checkBounds m o p st in
  transformedLines st1 = transformedLines st /\
  currentX st1 = currentX st /\ currentY st1 = currentY st /\
  currentZ st1 = currentZ st /\ absoluteMode st1 = absoluteMode st.
Proof.
  cbv zeta. unfold checkBounds.
  destruct (warnOutsideBounds o && negb (outsideBoundsWarned st) && (hasX p || hasY p));
    [destruct (negb (isWithinBounds _ _ m))|]; simpl; auto.
Qed.

Lemma segmentLine_some (sx sy sz ex ey ez len : Q) :
  ~ len == 0 -> exists segs, segmentLine sx sy sz ex ey ez len = Some segs.
Proof.
  intro H. unfold segmentLine.
  destruct (dist_leb _ len); [eauto|].
  rewrite (proj2 (Qeq_bool_false len 0) H). eauto.
Qed.

Lemma transformLine_some (p : ParsedMove) (cx cy cz : Q) :
  ~ segmentLength o == 0 -> exists ls, transformLine p cx cy cz m o = Some ls.
Proof.
  intro H. unfold transformLine.
  destruct (segmentLine_some cx cy cz (orElse (move_x p) cx) (orElse (move_y p) cy)
              (orElse (move_z p) cz) (segmentLength o) H) as [segs E].
  rewrite E.
  destruct (type p); eauto;
    destruct (negb (hasZ p) && negb (hasX p) && negb (hasY p)); eauto;
    destruct (negb (hasX p) && negb (hasY p)); eauto;
    destruct (dist_leb _ _); eauto.
Qed.

(** The step of the loop on a line that reaches the parser. *)
Lemma processLine_parsed (st : LoopState) (line : string) :
  reachesParser st line = true ->
  processLine m o st line =
  let parsed := parseGcodeLine line (currentX st) (currentY st) (currentZ st) in
  let st1 := checkBounds m o parsed st in
  if isMotion parsed then
    match transformLine parsed (currentX st) (currentY st) (currentZ st) m o with
    | None => None
    | Some newLines =>
        Some (mkState (transformedLines st ++ newLines) (warnings st1)
                (orElse (move_x parsed) (currentX st))
                (orElse (move_y parsed) (currentY st))
                (orElse (move_z parsed) (currentZ st))
                true (outsideBoundsWarned st1))
    end
  else Some (pushLines st1 [line]).
Proof.
  unfold reachesParser, isBlankOrComment. cbv zeta. rewrite !andb_true_iff.
  intros [[[Hb H90] H91] Ha].
  apply negb_true_iff in Hb, H90, H91.
  unfold processLine. rewrite Hb, H90, H91, Ha. simpl negb. cbv iota.
  set (parsed := parseGcodeLine line (currentX st) (currentY st) (currentZ st)).
  destruct (checkBounds_fields parsed st) as [E1 [E2 [E3 [E4 E5]]]].
  rewrite E1, E2, E3, E4, E5, Ha. unfold isMotion.
  destruct (type parsed); reflexivity.
Qed.

(** C9.  After an absolute-mode motion line the tracked position is the
    target written on the line, an axis that the line does not mention
    keeping its tracked value; no height-map offset enters it. *)
Theorem tracked_position_is_nominal_target (st : LoopState) (line : string) :
  reachesParser st line = true ->
  isMotion (parseGcodeLine line (currentX st) (currentY st) (currentZ st)) = true ->
  ~ segmentLength o == 0 ->
  exists st',
    processLine m o st line = Some st' /\
    currentX st' = orElse (wordValue "X" line) (currentX st) /\
    currentY st' = orElse (wordValue "Y" line) (currentY st) /\
    currentZ st' = orElse (wordValue "Z" line) (currentZ st).
Proof.
  intros Hr Hm Hs. rewrite (processLine_parsed st line Hr). cbv zeta.
  rewrite Hm.
  destruct (parse_motion line (currentX st) (currentY st) (currentZ st) Hm)
    as [Ex [Ey [Ez _]]].
  destruct (transformLine_some
              (parseGcodeLine line (currentX st) (currentY st) (currentZ st))
              (currentX st) (currentY st) (currentZ st) Hs) as [ls E].
  rewrite E. eexists. split; [reflexivity|]. simpl.
  rewrite Ex, Ey, Ez. simpl. auto.
Qed.

(** ** Segmentation *)

Lemma segmentLines_acc (ty : MoveType) (f : option Q) (segs : list Segment) (acc : list string) :
  acc <> [] ->
  segmentLines ty f m segs acc = acc ++ map (emitSegment ty m None) segs.
Proof.
  revert acc. induction segs as [|s segs IH]; intros acc Hne; simpl.
  - now rewrite app_nil_r.
  - rewrite IH by (destruct acc; discriminate).
    rewrite <- app_assoc. simpl. unfold emitSegment.
    destruct acc; [contradiction | reflexivity].
Qed.

Lemma segmentLines_nil (ty : MoveType) (f : option Q) (segs : list Segment) :
  segmentLines ty f m segs [] =
  match segs with
  | [] => []
  | s :: rest => emitSegment ty m f s :: map (emitSegment ty m None) rest
  end.
Proof.
  destruct segs as [|s rest]; simpl; trivial.
  rewrite segmentLines_acc by discriminate. reflexivity.
Qed.

Lemma countFromOne_cons (n : Z) :
  (1 <= n)%Z ->
  countFromOne n = 1%Z :: map Z.of_nat (seq 2 (Z.to_nat n - 1)).
Proof.
  intro H. unfold countFromOne.
  replace (Z.to_nat n) with (S (Z.to_nat n - 1)) at 1 by lia. reflexivity.
Qed.


(** [dist_ceil_div] is the ceiling of the quotient of the distance by a
    positive length: the least [n] with [sqrt d2 <= n * len]. *)
Lemma dist_ceil_div_spec (d2 len : Q) :
  0 < len -> 0 <= d2 ->
  let n := dist_ceil_div d2 len in
  (0 <= n)%Z /\
  d2 <= (inject_Z n * len) * (inject_Z n * len) /\
  ((0 < n)%Z -> (inject_Z (n - 1) * len) * (inject_Z (n - 1) * len) < d2).
Proof.
  intros Hl Hd. cbv zeta. unfold dist_ceil_div.
  rewrite (proj2 (Qle_bool_iff 0 len) (Qlt_le_weak _ _ Hl)).
  set (q := d2 / (len * len)). set (c := Qceiling q).
  assert (Hll : 0 < len * len) by nra.
  assert (Eq : d2 == q * (len * len)) by (unfold q; field; lra).
  pose proof (Qle_ceiling q) as Cq. fold c in Cq.
  pose proof (Qceiling_lt q) as Cl. fold c in Cl.
  pose proof (Z.sqrt_up_nonneg c) as Hn.
  split; [assumption|]. split.
  - assert (Hc : (c <= Z.sqrt_up c * Z.sqrt_up c)%Z).
    { destruct (Z_lt_le_dec 0 c) as [P | P].
      - apply Z.sqrt_up_spec in P. unfold Z.pred in P. lia.
      - nia. }
    assert (Hq : inject_Z c <= inject_Z (Z.sqrt_up c) * inject_Z (Z.sqrt_up c)).
    { rewrite <- inject_Z_mult. rewrite <- Zle_Qle. exact Hc. }
    setoid_replace (inject_Z (Z.sqrt_up c) * len * (inject_Z (Z.sqrt_up c) * len))
      with (inject_Z (Z.sqrt_up c) * inject_Z (Z.sqrt_up c) * (len * len)) by ring.
    rewrite Eq. apply Qmult_le_compat_r; lra.
  - intro Hpos.
    assert (P : (0 < c)%Z).
    { destruct (Z_lt_le_dec 0 c) as [P | P]; trivial.
      rewrite Z.sqrt_up_eqn0 in Hpos by assumption. lia. }
    apply Z.sqrt_up_spec in P. unfold Z.pred in P.
    assert (Hc : ((Z.sqrt_up c - 1) * (Z.sqrt_up c - 1) <= c - 1)%Z).
    { assert (Z.sqrt_up c + -1 = Z.sqrt_up c - 1)%Z by lia. nia. }
    assert (Hq : inject_Z (Z.sqrt_up c - 1) * inject_Z (Z.sqrt_up c - 1)
                 <= inject_Z (c - 1)).
    { rewrite <- inject_Z_mult. rewrite <- Zle_Qle. exact Hc. }
    setoid_replace (inject_Z (Z.sqrt_up c - 1) * len * (inject_Z (Z.sqrt_up c - 1) * len))
      with (inject_Z (Z.sqrt_up c - 1) * inject_Z (Z.sqrt_up c - 1) * (len * len)) by ring.
    rewrite Eq.
    apply Qle_lt_trans with (inject_Z (c - 1) * (len * len)).
    + apply Qmult_le_compat_r; lra.
    + apply Qmult_lt_compat_r; assumption.
Qed.

Lemma dist_leb_false (d2 len : Q) :
  0 < len -> (dist_leb d2 len = false <-> len * len < d2).
Proof.
  intro Hl. unfold dist_leb.
  rewrite (proj2 (Qle_bool_iff 0 len) (Qlt_le_weak _ _ Hl)). simpl.
  apply Qle_bool_false.
Qed.

Lemma long_distance_count (d2 len : Q) :
  0 < len -> dist_leb d2 len = false -> (2 <= dist_ceil_div d2 len)%Z.
Proof.
  intros Hl Hd. apply dist_leb_false in Hd; trivial.
  assert (Hll : 0 < len * len) by nra.
  destruct (dist_ceil_div_spec d2 len Hl ltac:(lra)) as [Hn [Hu _]].
  destruct (Z_lt_le_dec (dist_ceil_div d2 len) 2) as [Lt | Ge]; trivial.
  exfalso.
  assert (C : dist_ceil_div d2 len = 0%Z \/ dist_ceil_div d2 len = 1%Z) by lia.
  destruct C as [C | C]; rewrite C in Hu; simpl in Hu.
  - assert (E : 0 * len * (0 * len) == 0) by ring. rewrite E in Hu. lra.
  - assert (E : 1 * len * (1 * len) == len * len) by ring. rewrite E in Hu. lra.
Qed.



(** ** The bounds warning *)

Lemma processLine_not_parsed (st : LoopState) (line : string) :
  reachesParser st line = false ->
  exists b,
    processLine m o st line =
    Some (mkState (transformedLines st ++ [line]) (warnings st)
            (currentX st) (currentY st) (currentZ st) b (outsideBoundsWarned st)).
Proof.
  unfold reachesParser, isBlankOrComment, processLine. cbv zeta.
  destruct (String.eqb (trim line) "" || startsWith ";" (trim line)
            || startsWith "(" (trim line)); [intros _; eexists; reflexivity|].
  destruct (matchesIgnoreCase "G90" (trim line)); [intros _; eexists; reflexivity|].
  destruct (matchesIgnoreCase "G91" (trim line)); [intros _; eexists; reflexivity|].
  destruct (absoluteMode st); [discriminate|].
  intros _. eexists. reflexivity.
Qed.

Lemma processLine_total (st : LoopState) (line : string) :
  ~ segmentLength o == 0 -> exists st', processLine m o st line = Some st'.
Proof.
  intro Hs. destruct (reachesParser st line) eqn:Hr.
  - rewrite (processLine_parsed st line Hr). cbv zeta.
    destruct (isMotion _); [|eauto].
    destruct (transformLine_some
                (parseGcodeLine line (currentX st) (currentY st) (currentZ st))
                (currentX st) (currentY st) (currentZ st) Hs) as [ls E].
    rewrite E. eauto.
  - destruct (processLine_not_parsed st line Hr) as [b E]. eauto.
Qed.

Lemma processLines_total (lines : list string) (st : LoopState) :
  ~ segmentLength o == 0 -> exists st', processLines m o st lines = Some st'.
Proof.
  intro Hs. revert st. induction lines as [|l lines IH]; intro st; simpl; [eauto|].
  destruct (processLine_total st l Hs) as [st1 E]. rewrite E. apply IH.
Qed.

(** A step only pushes lines. *)
Lemma processLine_appends (st st' : LoopState) (line : string) :
  processLine m o st line = Some st' ->
  exists t, transformedLines st' = transformedLines st ++ t.
Proof.
  destruct (reachesParser st line) eqn:Hr.
  - rewrite (processLine_parsed st line Hr). cbv zeta.
    destruct (isMotion _).
    + destruct (transformLine _ _ _ _ m o) as [ls|]; [|discriminate].
      intro H. injection H as <-. simpl. eauto.
    + intro H. injection H as <-. simpl.
      destruct (checkBounds_fields
                  (parseGcodeLine line (currentX st) (currentY st) (currentZ st)) st)
        as [E _].
      rewrite E. eauto.
  - destruct (processLine_not_parsed st line Hr) as [b E]. rewrite E.
    intro H. injection H as <-. simpl. eauto.
Qed.

Lemma processLines_appends (lines : list string) (st st' : LoopState) :
  processLines m o st lines = Some st' ->
  exists t, transformedLines st' = transformedLines st ++ t.
Proof.
  revert st. induction lines as [|l lines IH]; intro st; simpl.
  - intro H. injection H as <-. exists []. now rewrite app_nil_r.
  - destruct (processLine m o st l) as [st1|] eqn:E; [|discriminate].
    intro H. destruct (processLine_appends st st1 l E) as [t1 E1].
    destruct (IH st1 H) as [t2 E2]. exists (t1 ++ t2).
    now rewrite E2, E1, app_assoc.
Qed.

(** C4.  After an incremental-mode switch and until an absolute-mode
    switch every line, a motion line included, is emitted as it was read:
    the output lines of the program are those of the lines before the
    switch, then the switch and the lines that follow it up to the next
    absolute-mode switch, unchanged, then those of the rest. *)
Theorem incremental_mode_passes_through
    (gcode : string) (pre mid post : list string) (l : string) (st : LoopState) :
  ~ segmentLength o == 0 ->
  splitLines gcode = pre ++ l :: mid ++ post ->
  processLines m o (initialState m) pre = Some st ->
  isIncrementalSwitch l = true ->
  (forall x, In x mid -> isAbsoluteSwitch x = false) ->
  exists r rest,
    transformGcode gcode m o = Some r /\
    transformedGcode r = joinLines (transformedLines st ++ l :: mid ++ rest) /\
    (post = [] -> rest = [] /\ resultWarnings r = warnings st).
Proof.
  intros Hseg Hsplit Hpre Hl Hmid.
  unfold isIncrementalSwitch in Hl. rewrite !andb_true_iff in Hl.
  destruct Hl as [[Hb H90] H91].
  apply negb_true_iff in Hb, H90.
  unfold transformGcode. rewrite Hsplit, processLines_app, Hpre. simpl.
  rewrite (processLine_mode_switch st l Hb (or_intror H91)), H90.
  rewrite processLines_app.
  rewrite incremental_lines by (trivial; reflexivity).
  destruct (processLines_total post
              (pushLines (mkState (transformedLines st ++ [l]) (warnings st)
                            (currentX st) (currentY st) (currentZ st) false
                            (outsideBoundsWarned st)) mid) Hseg) as [st' E].
  destruct (processLines_appends post _ _ E) as [rest Er].
  rewrite E. exists (mkResult (joinLines (transformedLines st')) (warnings st')), rest.
  split; [reflexivity|]. simpl. split.
  - rewrite Er. simpl. now rewrite <- !app_assoc.
  - intros ->. simpl in E. injection E as <-. simpl in Er.
    split; [|reflexivity].
    apply (app_inv_head ((transformedLines st ++ [l]) ++ mid)).
    now rewrite app_nil_r.
Qed.

(** What one step does to the warnings. *)
Lemma processLine_warnings (st st' : LoopState) (line : string) :
  processLine m o st line = Some st' ->
  let fire := warnOutsideBounds o && negb (outsideBoundsWarned st)
              && offendingLine m st line in
  warnings st' = (if fire then warnings st ++ [boundsWarning] else warnings st) /\
  outsideBoundsWarned st' = (outsideBoundsWarned st || fire).
Proof.
  cbv zeta. unfold offendingLine. cbv zeta.
  destruct (reachesParser st line) eqn:Hr.
  - rewrite (processLine_parsed st line Hr). cbv zeta.
    set (parsed := parseGcodeLine line (currentX st) (currentY st) (currentZ st)).
    assert (C : warnings (checkBounds m o parsed st) =
                (if warnOutsideBounds o && negb (outsideBoundsWarned st)
                    && (true && (hasX parsed || hasY parsed)
                        && negb (isWithinBounds (orElse (move_x parsed) (currentX st))
                                   (orElse (move_y parsed) (currentY st)) m))
                 then warnings st ++ [boundsWarning] else warnings st) /\
                outsideBoundsWarned (checkBounds m o parsed st) =
                (outsideBoundsWarned st ||
                 warnOutsideBounds o && negb (outsideBoundsWarned st)
                 && (true && (hasX parsed || hasY parsed)
                     && negb (isWithinBounds (orElse (move_x parsed) (currentX st))
                                (orElse (move_y parsed) (currentY st)) m)))).
    { unfold checkBounds.
      destruct (outsideBoundsWarned st) eqn:W;
        destruct (warnOutsideBounds o), (hasX parsed || hasY parsed),
                 (isWithinBounds (orElse (move_x parsed) (currentX st))
                    (orElse (move_y parsed) (currentY st)) m);
        simpl; rewrite ?W; auto. }
    destruct (isMotion parsed).
    + destruct (transformLine parsed _ _ _ m o); [|discriminate].
      intro H. injection H as <-. simpl. exact C.
    + intro H. injection H as <-. simpl. exact C.
  - destruct (processLine_not_parsed st line Hr) as [b E]. rewrite E.
    intro H. injection H as <-. simpl.
    rewrite andb_false_r, orb_false_r. auto.
Qed.

Lemma warned_stays (lines : list string) (st st' : LoopState) :
  outsideBoundsWarned st = true ->
  processLines m o st lines = Some st' ->
  warnings st' = warnings st /\ outsideBoundsWarned st' = true.
Proof.
  revert st. induction lines as [|l lines IH]; intros st Hw; simpl.
  - intro H. injection H as <-. auto.
  - destruct (processLine m o st l) as [st1|] eqn:E; [|discriminate].
    destruct (processLine_warnings st st1 l E) as [W1 W2].
    rewrite Hw in W1, W2. rewrite andb_false_r in W1. simpl in W1, W2.
    intro H. destruct (IH st1 W2 H) as [A B]. split; congruence.
Qed.

Lemma warnings_from (lines : list string) (st0 st : LoopState) :
  outsideBoundsWarned st0 = false -> warnings st0 = [] ->
  processLines m o st0 lines = Some st ->
  (warnings st = [] /\
   (warnOutsideBounds o = false \/
    forall pre l post stp,
      lines = pre ++ l :: post -> processLines m o st0 pre = Some stp ->
      offendingLine m stp l = false))
  \/
  (warnings st = [boundsWarning] /\ warnOutsideBounds o = true /\
   exists pre l post stp stp',
     lines = pre ++ l :: post /\ processLines m o st0 pre = Some stp /\
     warnings stp = [] /\ offendingLine m stp l = true /\
     processLine m o stp l = Some stp' /\ warnings stp' = [boundsWarning]).
Proof.
  revert st0. induction lines as [|l lines IH]; intros st0 Hw0 Hn0; simpl.
  - intro H. injection H as <-. left. split; trivial. right.
    intros pre l post stp E. destruct pre; discriminate.
  - destruct (processLine m o st0 l) as [st1|] eqn:E; [|discriminate].
    destruct (processLine_warnings st0 st1 l E) as [W1 W2].
    rewrite Hw0, Hn0 in W1. rewrite Hw0 in W2. simpl in W1, W2.
    rewrite andb_true_r in W1, W2.
    intro H.
    destruct (warnOutsideBounds o && offendingLine m st0 l) eqn:F.
    + apply andb_true_iff in F. destruct F as [Fw Fo].
      destruct (warned_stays lines st1 st W2 H) as [A _].
      right. split; [congruence|]. split; [assumption|].
      exists [], l, lines, st0, st1. repeat split; trivial.
    + destruct (IH st1 W2 W1 H) as [[A B] | [A [B [pre [l' [post [stp [stp' C]]]]]]]].
      * left. split; trivial.
        destruct (warnOutsideBounds o) eqn:Ew; [|now left]. right.
        destruct B as [B | B]; [discriminate|]. simpl in F.
        intros pre l' post stp Hdec Hpre.
        destruct pre as [|p pre]; simpl in Hdec, Hpre.
        -- injection Hdec as <- <-. injection Hpre as <-. exact F.
        -- injection Hdec as <- ->. rewrite E in Hpre. now apply (B pre l' post).
      * right. split; trivial. split; trivial.
        destruct C as [C1 [C2 C3]].
        exists (l :: pre), l', post, stp, stp'. split; [now rewrite C1|].
        split; [simpl; now rewrite E|]. exact C3.
Qed.


End LineRewriter.

(* ------------------------------------------------------------------ *)
(** ** Instances on the sample map *)


Lemma getZOffset_witness :
  getZOffset 5 5 None = 0 /\
  getZOffset 5 5 (Some (mkMap (mkBounds 0 1 0 1) (mkResolution 0 0) [])) = 0.
Proof.
  destruct (getZOffset_cases 5 5) as [H0 [H1 _]].
  split; [exact H0 | apply H1; reflexivity].
Defined.

Lemma interpolate_exact_witness :
  exists z, bilinearInterpolate 50 50 sampleMap = Some z /\ z == 0.25.
Proof.
  apply (interpolate_exact_at_sample sampleMap (mkPoint 50 50 0.25)
           (mkSurrounding (mkPoint 0 0 0.1) (mkPoint 50 0 0.2)
                          (mkPoint 0 50 0.2) (mkPoint 50 50 0.25))).
  - simpl. tauto.
  - reflexivity.
  - vm_compute. reflexivity.
  - intros q Hq Hx Hy. simpl in Hq.
    repeat (destruct Hq as [<- | Hq]; [try reflexivity; exfalso; revert Hx Hy;
                                       unfold Qeq; simpl; lia|]).
    destruct Hq.
Defined.

Lemma sample_query_without_cell :
  ~ (forall (m : HeightMapData) (p : HeightMapPoint),
       In p (points m) ->
       exists z, bilinearInterpolate (pt_x p) (pt_y p) m = Some z /\ z == pt_z p).
Proof.
  intro H. destruct (H sparseMap (mkPoint 2 2 5)) as [z [E _]].
  - simpl. tauto.
  - vm_compute in E. discriminate E.
Qed.

(** Two stored points at the same coordinates: the query returns the Z of
    the first one. *)
Lemma duplicate_sample_shadowed :
  let m := mkMap (mkBounds 0 1 0 1) (mkResolution 2 2)
             [mkPoint 0 0 1; mkPoint 1 0 2; mkPoint 0 1 3; mkPoint 1 1 4;
              mkPoint 1 1 9] in
  In (mkPoint 1 1 9) (points m) /\
  exists z, bilinearInterpolate 1 1 m = Some z /\ z == 4.
Proof.
  cbv zeta. split; [simpl; tauto|].
  eexists. split; [vm_compute; reflexivity | reflexivity].
Qed.


Lemma mode_switch_witness :
  exists st',
    processLine sampleMap defaultOptions (initialState sampleMap) "G90 G0 X10 Y10"
    = Some st' /\
    transformedLines st' = headerLines sampleMap ++ ["G90 G0 X10 Y10"%string] /\
    absoluteMode st' = true /\
    currentX st' = 0 /\ currentY st' = 0 /\ currentZ st' = 0 /\
    warnings st' = [] /\ outsideBoundsWarned st' = false.
Proof.
  apply (mode_switch_only_switches sampleMap defaultOptions
           (initialState sampleMap) "G90 G0 X10 Y10").
  - reflexivity.
  - left. reflexivity.
Defined.

Lemma tracked_position_witness :
  exists st',
    processLine sampleMap (mkOptions 1 true)
      (mkState [] [] 10 20 5 true false) "G1 X50 Z-1.5 F300" = Some st' /\
    currentX st' = 50 /\ currentY st' = 20 /\ currentZ st' = (-15 # 10).
Proof.
  apply (tracked_position_is_nominal_target sampleMap (mkOptions 1 true)
           (mkState [] [] 10 20 5 true false) "G1 X50 Z-1.5 F300").
  - reflexivity.
  - reflexivity.
  - intro H. discriminate H.
Defined.


Lemma incremental_mode_witness :
  exists r rest,
    transformGcode "G0 Z5
G91
G1 X10 Y10 Z-1 F100
G90
G1 X1 Y1 Z0" sampleMap (mkOptions 1 true) = Some r /\
    transformedGcode r =
      joinLines ((headerLines sampleMap ++ ["G0 Z5.1000"%string]) ++
                 "G91"%string :: ["G1 X10 Y10 Z-1 F100"%string] ++ rest) /\
    (["G90"; "G1 X1 Y1 Z0"]%string = [] ->
     rest = [] /\ resultWarnings r = []).
Proof.
  apply (incremental_mode_passes_through sampleMap (mkOptions 1 true) _
           ["G0 Z5"%string] ["G1 X10 Y10 Z-1 F100"%string]
           ["G90"; "G1 X1 Y1 Z0"]%string "G91"
           (mkState (headerLines sampleMap ++ ["G0 Z5.1000"%string]) [] 0 0 5 true false)).
  - intro H. discriminate H.
  - reflexivity.
  - vm_compute. reflexivity.
  - reflexivity.
  - intros x [<- | []]. reflexivity.
Defined.



(* ================================================================== *)
(** * Further properties *)

(** ** Interpolation *)

Lemma cell_corners_stored (x y : Q) (m : HeightMapData) (s : Surrounding) :
  findSurroundingPoints x y m = Some s ->
  In (p00 s) (points m) /\ In (p10 s) (points m) /\
  In (p01 s) (points m) /\ In (p11 s) (points m).
Proof.
  intro H. destruct (findSurroundingPoints_inv _ _ _ _ H)
    as [_ [_ [H00 [H10 [H01 H11]]]]].
  apply findPoint_some in H00, H10, H01, H11. tauto.
Qed.

Lemma planar_cell (m : HeightMapData) (a b c x y : Q) (s : Surrounding) :
  (forall p, In p (points m) -> pt_z p == a * pt_x p + b * pt_y p + c) ->
  findSurroundingPoints x y m = Some s ->
  bilinear s (xWeightAt s x) (yWeightAt s y) == a * x + b * y + c.
Proof.
  intros Hp Hs.
  destruct (cell_shape _ _ _ _ Hs) as [Rx [Ry [X01 [X11 [Y10 Y11]]]]].
  destruct (cell_corners_stored _ _ _ _ Hs) as [I00 [I10 [I01 I11]]].
  apply Hp in I00, I10, I01, I11.
  unfold bilinear, xWeightAt, yWeightAt.
  rewrite I00, I10, I01, I11, X01, X11, Y10, Y11.
  unfold xRange, yRange in *. field. split; lra.
Qed.





Lemma increasing_ends (u : list Q) (r : Q) :
  StronglySorted Qlt u -> In r u ->
  nth 0 u 0 <= r /\ r <= nth (List.length u - 1) u 0.
Proof.
  intros Hs Hin. destruct (In_nth u r 0 Hin) as [k [Hk <-]]. split.
  - destruct k; [lra|]. apply Qlt_le_weak, increasing_nth; trivial; lia.
  - destruct (Nat.eq_dec k (List.length u - 1)) as [-> | Ne]; [lra|].
    apply Qlt_le_weak, increasing_nth; trivial; lia.
Qed.

Lemma cell_columns (x y : Q) (m : HeightMapData) (s : Surrounding) :
  findSurroundingPoints x y m = Some s ->
  let ux := uniqueSorted (map pt_x (points m)) in
  let uy := uniqueSorted (map pt_y (points m)) in
  pt_x (p00 s) == nth (intervalIndex (clampX x m) ux) ux 0 /\
  pt_x (p10 s) == nth (intervalIndex (clampX x m) ux + 1) ux 0 /\
  pt_y (p00 s) == nth (intervalIndex (clampY y m) uy) uy 0 /\
  pt_y (p01 s) == nth (intervalIndex (clampY y m) uy + 1) uy 0.
Proof.
  intro H. cbv zeta.
  destruct (findSurroundingPoints_inv _ _ _ _ H) as [_ [_ [H00 [H10 [H01 _]]]]].
  apply findPoint_some in H00, H10, H01. tauto.
Qed.

Lemma inside_extent_interval (c : Q) (u : list Q) :
  (2 <= List.length u)%nat ->
  nth 0 u 0 <= c -> c <= nth (List.length u - 1) u 0 ->
  nth (intervalIndex c u) u 0 <= c /\ c <= nth (intervalIndex c u + 1) u 0.
Proof.
  intros Hlen Hlo Hhi.
  destruct (interval_exists c u Hlen Hlo Hhi) as [j [Hj Hin]].
  destruct (intervalIndex_spec c u Hlen) as [_ [[Hi _] | [_ Hnone]]].
  - now apply inInterval_true.
  - rewrite Hnone in Hin by assumption. discriminate.
Qed.

(** X3.  A query within bounds that do not exceed the sampled extent lies
    inside the cell chosen for it. *)
Theorem within_bounds_query_inside_cell
    (x y : Q) (m : HeightMapData) (s : Surrounding) :
  findSurroundingPoints x y m = Some s ->
  isWithinBounds x y m = true ->
  (exists p, In p (points m) /\ pt_x p <= minX (bounds m)) ->
  (exists p, In p (points m) /\ maxX (bounds m) <= pt_x p) ->
  (exists p, In p (points m) /\ pt_y p <= minY (bounds m)) ->
  (exists p, In p (points m) /\ maxY (bounds m) <= pt_y p) ->
  pt_x (p00 s) <= x /\ x <= pt_x (p10 s) /\
  pt_y (p00 s) <= y /\ y <= pt_y (p01 s).
Proof.
  intros Hs Hb [pa [Ia La]] [pb [Ib Lb]] [pc [Ic Lc]] [pd [Id Ld]].
  unfold isWithinBounds in Hb. rewrite !andb_true_iff in Hb.
  destruct Hb as [[[B1 B2] B3] B4].
  apply geb_true in B1, B3. apply Qle_bool_iff in B2, B4.
  destruct (findSurroundingPoints_inv _ _ _ _ Hs) as [Lx [Ly _]].
  destruct (cell_columns _ _ _ _ Hs) as [X0 [X1 [Y0 Y1]]].
  pose proof (uniqueSorted_increasing (map pt_x (points m))) as Sx.
  pose proof (uniqueSorted_increasing (map pt_y (points m))) as Sy.
  assert (Cx : clampX x m == x) by (unfold clampX; now apply clamp_inside).
  assert (Cy : clampY y m == y) by (unfold clampY; now apply clamp_inside).
  destruct (uniqueSorted_complete _ _ (in_map pt_x _ _ Ia)) as [ra [Ira Era]].
  destruct (uniqueSorted_complete _ _ (in_map pt_x _ _ Ib)) as [rb [Irb Erb]].
  destruct (uniqueSorted_complete _ _ (in_map pt_y _ _ Ic)) as [rc [Irc Erc]].
  destruct (uniqueSorted_complete _ _ (in_map pt_y _ _ Id)) as [rd [Ird Erd]].
  destruct (increasing_ends _ _ Sx Ira) as [Ea _].
  destruct (increasing_ends _ _ Sx Irb) as [_ Eb].
  destruct (increasing_ends _ _ Sy Irc) as [Ec _].
  destruct (increasing_ends _ _ Sy Ird) as [_ Ed].
  destruct (inside_extent_interval (clampX x m) _ Lx) as [Px0 Px1]; [lra | lra |].
  destruct (inside_extent_interval (clampY y m) _ Ly) as [Py0 Py1]; [lra | lra |].
  rewrite X0, X1, Y0, Y1. repeat split; lra.
Qed.

Lemma length_sortAscending (l : list Q) :
  List.length (sortAscending l) = List.length l.
Proof.
  induction l as [|a l IH]; simpl; trivial.
  now rewrite length_insertSorted, IH.
Qed.

Lemma uniqueSorted_single (l : list Q) :
  (forall a b, In a l -> In b l -> a == b) ->
  (List.length (uniqueSorted l) <= 1)%nat.
Proof.
  intro H. unfold uniqueSorted. rewrite length_sortAscending.
  pose proof (uniqueValues_distinct l []) as D.
  destruct (uniqueValues [] l) as [|a [|b r]] eqn:E; simpl; try lia.
  exfalso. inversion D as [|? ? Ha _]; subst.
  rewrite Forall_forall in Ha. apply (Ha b); [now left|].
  assert (Ia : In a (uniqueValues [] l)) by (rewrite E; now left).
  assert (Ib : In b (uniqueValues [] l)) by (rewrite E; right; now left).
  apply uniqueValues_fresh in Ia, Ib. apply H; tauto.
Qed.

(** X4.  A map whose samples all lie on one vertical or on one horizontal line
    (an empty map and a single sample included) gives no cell: every query
    returns null, and the offset is 0 everywhere. *)
Theorem line_of_samples_gives_no_offset (m : HeightMapData) (x y : Q) :
  (forall p q, In p (points m) -> In q (points m) -> pt_x p == pt_x q) \/
  (forall p q, In p (points m) -> In q (points m) -> pt_y p == pt_y q) ->
  findSurroundingPoints x y m = None /\
  bilinearInterpolate x y m = None /\
  getZOffset x y (Some m) = 0.
Proof.
  intro H.
  assert (N : findSurroundingPoints x y m = None).
  { unfold findSurroundingPoints.
    assert (L : (List.length (uniqueSorted (map pt_x (points m))) <= 1)%nat \/
                (List.length (uniqueSorted (map pt_y (points m))) <= 1)%nat).
    { destruct H as [H | H]; [left | right]; apply uniqueSorted_single;
        intros a b Ia Ib; apply in_map_iff in Ia, Ib;
        destruct Ia as [p [<- Ip]], Ib as [q [<- Iq]]; now apply H. }
    destruct (Nat.ltb_spec (List.length (uniqueSorted (map pt_x (points m)))) 2);
      [reflexivity|].
    destruct (Nat.ltb_spec (List.length (uniqueSorted (map pt_y (points m)))) 2);
      [reflexivity|]. lia. }
  assert (B : bilinearInterpolate x y m = None)
    by (unfold bilinearInterpolate; now rewrite N).
  repeat split; trivial.
  unfold getZOffset. rewrite B. now destruct (points m).
Qed.

(** A clamped coordinate that falls outside the sampled coordinates, on
    either side, is in no interval: the search ends on the last one. *)
Lemma outside_extent_selects_last (c : Q) (u : list Q) :
  StronglySorted Qlt u -> (2 <= List.length u)%nat ->
  c < nth 0 u 0 \/ nth (List.length u - 1) u 0 < c ->
  intervalIndex c u = (List.length u - 2)%nat.
Proof.
  intros Hs Hlen Hout.
  destruct (intervalIndex_spec c u Hlen) as [Hi [[Hin _] | [E _]]]; trivial.
  exfalso. apply inInterval_true in Hin. destruct Hin as [L1 L2].
  destruct (increasing_ends u (nth (intervalIndex c u) u 0) Hs) as [A _];
    [apply nth_In; lia|].
  destruct (increasing_ends u (nth (intervalIndex c u + 1) u 0) Hs) as [_ B];
    [apply nth_In; lia|].
  destruct Hout; lra.
Qed.

(** X5.  Bounds wider than the samples: a query whose clamped x is smaller than
    every sampled x (or larger than every sampled x) is answered from the
    last column of cells, the one of the two largest sampled x. *)
Theorem clamped_outside_samples_uses_last_column
    (x y : Q) (m : HeightMapData) (s : Surrounding) :
  findSurroundingPoints x y m = Some s ->
  let ux := uniqueSorted (map pt_x (points m)) in
  clampX x m < nth 0 ux 0 \/ nth (List.length ux - 1) ux 0 < clampX x m ->
  pt_x (p00 s) == nth (List.length ux - 2) ux 0 /\
  pt_x (p10 s) == nth (List.length ux - 1) ux 0.
Proof.
  intros Hs ux Hout.
  destruct (findSurroundingPoints_inv _ _ _ _ Hs) as [Lx _].
  destruct (cell_columns _ _ _ _ Hs) as [X0 [X1 _]].
  fold ux in Lx, X0, X1.
  pose proof (uniqueSorted_increasing (map pt_x (points m))) as Sx. fold ux in Sx.
  rewrite (outside_extent_selects_last _ _ Sx Lx Hout) in X0, X1.
  replace (List.length ux - 2 + 1)%nat with (List.length ux - 1)%nat in X1 by lia.
  split; assumption.
Qed.

(** X6.  Bounds equal to the sampled extent: a
    query at or beyond the low edge is answered from the first column of
    cells, one at or beyond the high edge from the last column. *)
Theorem edge_query_uses_edge_column
    (x y : Q) (m : HeightMapData) (s : Surrounding) :
  findSurroundingPoints x y m = Some s ->
  let ux := uniqueSorted (map pt_x (points m)) in
  minX (bounds m) == nth 0 ux 0 ->
  maxX (bounds m) == nth (List.length ux - 1) ux 0 ->
  (x <= minX (bounds m) ->
   pt_x (p00 s) == nth 0 ux 0 /\ pt_x (p10 s) == nth 1 ux 0) /\
  (maxX (bounds m) <= x ->
   pt_x (p00 s) == nth (List.length ux - 2) ux 0 /\
   pt_x (p10 s) == nth (List.length ux - 1) ux 0).
Proof.
  intros Hs ux Hlo Hhi.
  destruct (findSurroundingPoints_inv _ _ _ _ Hs) as [Lx _].
  destruct (cell_columns _ _ _ _ Hs) as [X0 [X1 _]].
  fold ux in Lx, X0, X1.
  destruct (nearest_edge_column m x Lx Hlo Hhi) as [Nlo Nhi]. fold ux in Nlo, Nhi.
  split; intro Hx.
  - rewrite (Nlo Hx) in X0, X1. split; assumption.
  - rewrite (Nhi Hx) in X0, X1.
    replace (List.length ux - 2 + 1)%nat with (List.length ux - 1)%nat in X1 by lia.
    split; assumption.
Qed.

(** X7.  A point is within the bounds exactly when the bounds are well formed
    and clamping leaves the point where it is; with inverted bounds no
    point is within them. *)
Theorem within_bounds_iff_clamp_fixes (x y : Q) (m : HeightMapData) :
  isWithinBounds x y m = true <->
  minX (bounds m) <= maxX (bounds m) /\ minY (bounds m) <= maxY (bounds m) /\
  clampX x m == x /\ clampY y m == y.
Proof.
  unfold isWithinBounds, clampX, clampY.
  rewrite !andb_true_iff, !geb_true, !Qle_bool_iff.
  set (lx := minX (bounds m)). set (hx := maxX (bounds m)).
  set (ly := minY (bounds m)). set (hy := maxY (bounds m)).
  split.
  - intros [[[A B] C] D]. repeat split; try lra; now apply clamp_inside.
  - intros [Wx [Wy [Cx Cy]]].
    pose proof (Q.le_max_l lx (Qmin hx x)) as A1.
    pose proof (Q.le_max_l ly (Qmin hy y)) as A2.
    assert (B1 : Qmax lx (Qmin hx x) <= hx).
    { apply Q.max_lub; [assumption | apply Q.le_min_l]. }
    assert (B2 : Qmax ly (Qmin hy y) <= hy).
    { apply Q.max_lub; [assumption | apply Q.le_min_l]. }
    repeat split; lra.
Qed.

(** ** A map of zeros, and the borders of a cell *)

Lemma toFixed_compat (d : nat) (a b : Q) : a == b -> toFixed d a = toFixed d b.
Proof.
  intro E. unfold toFixed, toFixedDigits, nearestInt.
  rewrite (ltb_compat a b 0 E).
  assert (F : Qfloor (Qabs a * inject_Z (Z.pos (tenPow d)) + (1 # 2))
            = Qfloor (Qabs b * inject_Z (Z.pos (tenPow d)) + (1 # 2)))
    by (apply Qfloor_comp; now rewrite E).
  now rewrite F.
Qed.

(** X8.  A map whose samples are all zero changes nothing: the offset is zero
    at every query, inside the bounds or outside, whether or not a cell is
    found, and the line emitted for a sub-segment carries the nominal Z. *)
Theorem zero_map_changes_no_height (m : HeightMapData) :
  (forall p, In p (points m) -> pt_z p == 0) ->
  (forall x y, getZOffset x y (Some m) == 0)
  /\ (forall ty f seg,
        emitSegment ty m f seg
        = buildGcodeLine ty (Some (seg_x seg)) (Some (seg_y seg)) (seg_z seg) f
            true true).
Proof.
  intro Hz.
  assert (H0 : forall x y, getZOffset x y (Some m) == 0).
  { intros x y. unfold getZOffset.
    destruct (points m) eqn:Ep; [reflexivity|]. rewrite <- Ep in Hz.
    destruct (findSurroundingPoints x y m) as [s|] eqn:Hs.
    - rewrite (bilinearInterpolate_cell _ _ _ _ Hs).
      rewrite (planar_cell m 0 0 0 x y s); [lra | | exact Hs].
      intros p Hp. rewrite (Hz p Hp). lra.
    - unfold bilinearInterpolate. rewrite Hs. reflexivity. }
  split; [exact H0|].
  intros ty f seg. unfold emitSegment, buildGcodeLine.
  rewrite (toFixed_compat 4 (seg_z seg + getZOffset (seg_x seg) (seg_y seg) (Some m))
             (seg_z seg)); [reflexivity|].
  rewrite H0. lra.
Qed.

Lemma bilinear_borders (s : Surrounding) (w : Q) :
  bilinear s 0 w == pt_z (p00 s) * (1 - w) + pt_z (p01 s) * w
  /\ bilinear s 1 w == pt_z (p10 s) * (1 - w) + pt_z (p11 s) * w
  /\ bilinear s w 0 == pt_z (p00 s) * (1 - w) + pt_z (p10 s) * w
  /\ bilinear s w 1 == pt_z (p01 s) * (1 - w) + pt_z (p11 s) * w.
Proof. unfold bilinear. repeat split; ring. Qed.

(** X9.  On a border of the selected cell the result depends on the two
    samples at the ends of that border only: it is their linear
    interpolation, so that the cells on both sides of a grid line agree
    along it. *)
Theorem border_value_from_border_samples
    (x y : Q) (m : HeightMapData) (s : Surrounding) :
  findSurroundingPoints x y m = Some s ->
  exists z,
    bilinearInterpolate x y m = Some z
    /\ (x == pt_x (p00 s) ->
        z == pt_z (p00 s) * (1 - yWeightAt s y) + pt_z (p01 s) * yWeightAt s y)
    /\ (x == pt_x (p10 s) ->
        z == pt_z (p10 s) * (1 - yWeightAt s y) + pt_z (p11 s) * yWeightAt s y)
    /\ (y == pt_y (p00 s) ->
        z == pt_z (p00 s) * (1 - xWeightAt s x) + pt_z (p10 s) * xWeightAt s x)
    /\ (y == pt_y (p01 s) ->
        z == pt_z (p01 s) * (1 - xWeightAt s x) + pt_z (p11 s) * xWeightAt s x).
Proof.
  intro Hs. eexists. split; [apply (bilinearInterpolate_cell _ _ _ _ Hs)|].
  destruct (cell_shape _ _ _ _ Hs) as [Rx [Ry _]].
  unfold xRange in Rx. unfold yRange in Ry.
  destruct (weight_ends (pt_x (p00 s)) (pt_x (p10 s)) x Rx) as [X0 X1].
  destruct (weight_ends (pt_y (p00 s)) (pt_y (p01 s)) y Ry) as [Y0 Y1].
  destruct (bilinear_borders s (yWeightAt s y)) as [B0 [B1 _]].
  destruct (bilinear_borders s (xWeightAt s x)) as [_ [_ [B2 B3]]].
  repeat split; intro E.
  - rewrite <- B0. apply bilinear_compat; [exact (X0 E) | reflexivity].
  - rewrite <- B1. apply bilinear_compat; [exact (X1 E) | reflexivity].
  - rewrite <- B2. apply bilinear_compat; [reflexivity | exact (Y0 E)].
  - rewrite <- B3. apply bilinear_compat; [reflexivity | exact (Y1 E)].
Qed.

(** ** The probe grid, continued *)

Lemma length_gridRow (xs : list Q) (i : nat) (y : Q) :
  List.length (gridRow xs i y) = List.length xs.
Proof.
  unfold gridRow. rewrite length_map.
  destruct (Nat.eqb (i mod 2) 0); [reflexivity | apply length_rev].
Qed.

Lemma length_grid (xs ys : list Q) :
  List.length (List.concat (gridRows xs ys))
  = (List.length ys * List.length xs)%nat.
Proof.
  unfold gridRows. generalize 0%nat as a.
  induction ys as [|y ys IH]; intro a; simpl; trivial.
  rewrite length_app, length_gridRow, IH. reflexivity.
Qed.

(** X10.  Count mode always returns, with [pointCountX * pointCountY] points
    (none when a count is not positive). *)
Theorem count_grid_size
    (minX maxX minY maxY gridSpacing : Q) (pointCountX pointCountY : Z) :
  exists pts,
    calculateProbeGrid minX maxX minY maxY gridSpacing true
      pointCountX pointCountY = Some pts /\
    List.length pts = (Z.to_nat pointCountY * Z.to_nat pointCountX)%nat.
Proof.
  eexists. split; [reflexivity|].
  rewrite length_grid. unfold countAxis. now rewrite !length_arrayFrom.
Qed.





Lemma mod2_succ (i : nat) :
  Nat.eqb (S i mod 2) 0 = negb (Nat.eqb (i mod 2) 0).
Proof.
  replace (S i) with (1 + i)%nat by lia.
  rewrite Nat.Div0.add_mod.
  pose proof (Nat.mod_upper_bound i 2 ltac:(lia)) as H.
  destruct (i mod 2) as [|[|k]]; [reflexivity | reflexivity | lia].
Qed.

Lemma nth_error_last_map {A B : Type} (f : A -> B) (l : list A) :
  nth_error (map f l) (List.length (map f l) - 1)
  = option_map f (nth_error l (List.length l - 1)).
Proof. now rewrite length_map, nth_error_map. Qed.

Lemma nth_error_last_rev {A : Type} (l : list A) :
  nth_error (rev l) (List.length (rev l) - 1) = nth_error l 0.
Proof.
  rewrite length_rev, nth_error_rev.
  destruct l as [|a l]; [reflexivity|].
  simpl List.length.
  destruct (Nat.ltb_spec (S (List.length l) - 1) (S (List.length l))); [|lia].
  f_equal. lia.
Qed.

Lemma nth_error_head_rev {A : Type} (l : list A) :
  nth_error (rev l) 0 = nth_error l (List.length l - 1).
Proof.
  rewrite nth_error_rev. destruct l as [|a l]; [reflexivity|].
  simpl List.length. destruct (Nat.ltb_spec 0 (S (List.length l))); [|lia].
  first [reflexivity | f_equal; lia].
Qed.

(** X12.  The traversal wastes no travel along x: the last point of a row and
    the first point of the next row have the same x, in both modes. *)
Theorem rows_join_at_same_x
    (minX maxX minY maxY gridSpacing : Q) (usePointCount : bool)
    (pointCountX pointCountY : Z) (pts : list ProbeGridPoint) :
  calculateProbeGrid minX maxX minY maxY gridSpacing usePointCount
    pointCountX pointCountY = Some pts ->
  exists xs ys,
    pts = List.concat (gridRows xs ys) /\
    forall i row next a,
      nth_error (gridRows xs ys) i = Some row ->
      nth_error (gridRows xs ys) (S i) = Some next ->
      nth_error row (List.length row - 1) = Some a ->
      exists b, nth_error next 0 = Some b /\ grid_x b = grid_x a.
Proof.
  intro H.
  assert (A : exists xs ys, pts = List.concat (gridRows xs ys)).
  { unfold calculateProbeGrid in H. destruct usePointCount.
    - injection H as <-. eauto.
    - destruct (spacingAxis minX maxX gridSpacing) as [xs|]; [|discriminate].
      destruct (spacingAxis minY maxY gridSpacing) as [ys|]; [|discriminate].
      injection H as <-. eauto. }
  destruct A as [xs [ys ->]]. exists xs, ys. split; [reflexivity|].
  intros i row next a Hr Hn Ha.
  destruct (gridRows_row xs ys i row Hr) as [y [_ ->]].
  destruct (gridRows_row xs ys (S i) next Hn) as [y' [_ ->]].
  unfold gridRow in *. rewrite mod2_succ.
  rewrite nth_error_last_map in Ha. rewrite nth_error_map.
  destruct (Nat.eqb (i mod 2) 0); simpl negb; cbv iota.
  - rewrite nth_error_head_rev.
    destruct (nth_error xs (List.length xs - 1)) as [v|]; [|discriminate].
    simpl in *. injection Ha as <-. eexists. split; reflexivity.
  - rewrite nth_error_last_rev in Ha.
    destruct (nth_error xs 0) as [v|]; [|discriminate].
    simpl in *. injection Ha as <-. eexists. split; reflexivity.
Qed.

Lemma roundTo_3_close (v : Q) :
  v - (1 # 2000) <= roundTo 3 v /\ roundTo 3 v <= v + (1 # 2000).
Proof.
  pose proof (roundTo_close 3 v) as H. apply Qabs_Qle_condition in H.
  change (1 # 2 * tenPow 3) with (1 # 2000) in H. destruct H. split; lra.
Qed.

Lemma In_arrayFrom (n : Z) (f : Z -> Q) (v : Q) :
  In v (arrayFrom n f) -> exists i, (0 <= i < n)%Z /\ v = f i.
Proof.
  unfold arrayFrom. intro H. apply in_map_iff in H.
  destruct H as [k [<- Hk]]. apply in_seq in Hk.
  exists (Z.of_nat k). split; [lia | reflexivity].
Qed.

Lemma countAxis_range (lo hi : Q) (n : Z) (v : Q) :
  lo <= hi -> In v (countAxis lo hi n) ->
  roundTo 3 lo <= v /\ v <= roundTo 3 hi.
Proof.
  intros H Hin. unfold countAxis in Hin. apply In_arrayFrom in Hin.
  destruct Hin as [i [Hi ->]].
  destruct (Z.ltb_spec 1 n) as [P | P].
  - assert (Pq : 0 < inject_Z (n - 1)) by (rewrite <- (Zlt_Qlt 0); lia).
    assert (S0 : 0 <= (hi - lo) / inject_Z (n - 1))
      by (apply Qle_shift_div_l; lra).
    assert (I0 : 0 <= inject_Z i) by (rewrite <- (Zle_Qle 0); lia).
    assert (I1 : inject_Z i <= inject_Z (n - 1)) by (rewrite <- Zle_Qle; lia).
    assert (M0 : 0 <= inject_Z i * ((hi - lo) / inject_Z (n - 1)))
      by (now apply Qmult_le_0_compat).
    assert (M1 : inject_Z i * ((hi - lo) / inject_Z (n - 1))
                 <= inject_Z (n - 1) * ((hi - lo) / inject_Z (n - 1)))
      by (now apply Qmult_le_compat_r).
    assert (E : inject_Z (n - 1) * ((hi - lo) / inject_Z (n - 1)) == hi - lo)
      by (field; lra).
    split; apply roundTo_monotone; lra.
  - split; apply roundTo_monotone; lra.
Qed.

Lemma generatedAxis_range (lo hi s v : Q) :
  lo <= hi -> 0 < s -> In v (generatedAxis lo hi s) ->
  roundTo 3 lo <= v /\ v <= roundTo 3 hi.
Proof.
  intros H Hs Hin. unfold generatedAxis in Hin. apply In_arrayFrom in Hin.
  destruct Hin as [i [Hi ->]].
  split; apply roundTo_monotone.
  - apply Q.min_glb; [|assumption].
    assert (0 <= inject_Z i * s); [|lra].
    apply Qmult_le_0_compat; [rewrite <- (Zle_Qle 0); lia | lra].
  - apply Q.le_min_r.
Qed.

Lemma spacingAxis_range (lo hi s : Q) (xs : list Q) (v : Q) :
  lo <= hi -> 0 < s -> spacingAxis lo hi s = Some xs -> In v xs ->
  lo - (1 # 2000) <= v /\ v <= hi + (1 # 2000).
Proof.
  intros H Hs E Hin.
  destruct (spacingAxis_spec lo hi s H Hs) as [xs' [last [E' [Exs _]]]].
  rewrite E in E'. injection E' as <-.
  assert (G : In v (generatedAxis lo hi s) \/ v = hi).
  { rewrite Exs in Hin. destruct (Qeq_bool (roundTo 3 hi) hi); [now left|].
    apply in_app_or in Hin. destruct Hin as [Hin | [<- | []]]; auto. }
  destruct G as [G | ->]; [|split; lra].
  destruct (generatedAxis_range lo hi s v H Hs G) as [A B].
  destruct (roundTo_3_close lo), (roundTo_3_close hi). split; lra.
Qed.

(** X13.  Probe targets stay in the rectangle up to the rounding of its own
    edges: every coordinate of the grid lies within half a thousandth of
    the interval of its axis. *)
Theorem grid_points_near_rectangle
    (minX maxX minY maxY gridSpacing : Q) (usePointCount : bool)
    (pointCountX pointCountY : Z) :
  minX <= maxX -> minY <= maxY ->
  (usePointCount = false -> 0 < gridSpacing) ->
  exists pts,
    calculateProbeGrid minX maxX minY maxY gridSpacing usePointCount
      pointCountX pointCountY = Some pts /\
    forall pt, In pt pts ->
      minX - (1 # 2000) <= grid_x pt /\ grid_x pt <= maxX + (1 # 2000) /\
      minY - (1 # 2000) <= grid_y pt /\ grid_y pt <= maxY + (1 # 2000).
Proof.
  intros Hx Hy Hs. unfold calculateProbeGrid. destruct usePointCount.
  - eexists. split; [reflexivity|]. intros pt Hpt. apply In_grid in Hpt.
    destruct Hpt as [Px Py].
    destruct (countAxis_range _ _ _ _ Hx Px), (countAxis_range _ _ _ _ Hy Py).
    destruct (roundTo_3_close minX), (roundTo_3_close maxX),
             (roundTo_3_close minY), (roundTo_3_close maxY).
    repeat split; lra.
  - specialize (Hs eq_refl).
    destruct (spacingAxis_spec minX maxX gridSpacing Hx Hs) as [xs [? [Ex _]]].
    destruct (spacingAxis_spec minY maxY gridSpacing Hy Hs) as [ys [? [Ey _]]].
    rewrite Ex, Ey. eexists. split; [reflexivity|].
    intros pt Hpt. apply In_grid in Hpt. destruct Hpt as [Px Py].
    destruct (spacingAxis_range _ _ _ _ _ Hx Hs Ex Px).
    destruct (spacingAxis_range _ _ _ _ _ Hy Hs Ey Py).
    repeat split; assumption.
Qed.

(** ** The size of the probe grid *)

Lemma Qceiling_positive (x : Q) : 0 < x -> (1 <= Qceiling x)%Z.
Proof.
  intro H. pose proof (Qle_ceiling x) as C.
  assert (P : 0 < inject_Z (Qceiling x)) by lra.
  unfold Qlt in P. simpl in P. lia.
Qed.

Lemma length_spacingAxis (lo hi s : Q) (xs : list Q) :
  lo < hi -> 0 < s -> spacingAxis lo hi s = Some xs -> (2 <= List.length xs)%nat.
Proof.
  intros Hlt Hs E.
  destruct (spacingAxis_spec lo hi s ltac:(lra) Hs) as [xs' [_ [E' [Hx _]]]].
  rewrite E in E'. injection E' as <-.
  assert (L : (2 <= List.length (generatedAxis lo hi s))%nat).
  { unfold generatedAxis. rewrite length_arrayFrom.
    assert (P : 0 < (hi - lo) / s) by (apply Qlt_shift_div_l; lra).
    pose proof (Qceiling_positive _ P). lia. }
  rewrite Hx. destruct (Qeq_bool (roundTo 3 hi) hi); [exact L|].
  rewrite length_app. lia.
Qed.

(** X14.  A configuration of at least two points per axis passes the guard
    of [startProbing]: in count mode with both counts at least 2, and in
    spacing mode with a rectangle of positive width and height and a
    positive spacing, the grid is returned and has at least 4 points. *)
Theorem proper_grid_has_four_points
    (minX maxX minY maxY gridSpacing : Q) (usePointCount : bool)
    (pointCountX pointCountY : Z) :
  (usePointCount = true -> (2 <= pointCountX)%Z /\ (2 <= pointCountY)%Z) ->
  (usePointCount = false -> minX < maxX /\ minY < maxY /\ 0 < gridSpacing) ->
  exists pts,
    calculateProbeGrid minX maxX minY maxY gridSpacing usePointCount
      pointCountX pointCountY = Some pts
    /\ (4 <= List.length pts)%nat.
Proof.
  intros Hc Hs. unfold calculateProbeGrid. destruct usePointCount.
  - destruct (Hc eq_refl) as [Hx Hy]. eexists. split; [reflexivity|].
    rewrite length_grid. unfold countAxis. rewrite !length_arrayFrom. nia.
  - destruct (Hs eq_refl) as [Hx [Hy Hg]].
    destruct (spacingAxis_spec minX maxX gridSpacing ltac:(lra) Hg) as [xs [_ [Ex _]]].
    destruct (spacingAxis_spec minY maxY gridSpacing ltac:(lra) Hg) as [ys [_ [Ey _]]].
    rewrite Ex, Ey. eexists. split; [reflexivity|].
    rewrite length_grid.
    pose proof (length_spacingAxis _ _ _ _ Hx Hg Ex).
    pose proof (length_spacingAxis _ _ _ _ Hy Hg Ey). nia.
Qed.

(** X15.  The guard of [startProbing] counts points, not columns: in count
    mode a single column of at least 4 points is returned with at least 4
    points, all of them at the same x. *)
Theorem single_column_passes_point_guard
    (minX maxX minY maxY gridSpacing : Q) (pointCountY : Z) :
  (4 <= pointCountY)%Z ->
  exists pts,
    calculateProbeGrid minX maxX minY maxY gridSpacing true 1 pointCountY = Some pts
    /\ (4 <= List.length pts)%nat
    /\ forall pt, In pt pts -> grid_x pt = roundTo 3 minX.
Proof.
  intro Hy. unfold calculateProbeGrid. eexists. split; [reflexivity|]. split.
  - rewrite length_grid. unfold countAxis. rewrite !length_arrayFrom. lia.
  - intros pt Hpt. apply In_grid in Hpt as [Hx _].
    unfold countAxis in Hx. simpl in Hx. destruct Hx as [<- | []].
    apply roundTo_compat. unfold inject_Z. lra.
Qed.

(** ** The line rewriter, continued *)

Lemma splitLines_nonempty (s : string) : splitLines s <> [].
Proof.
  destruct s as [|c s]; simpl; [discriminate|].
  destruct (Ascii.eqb c newline); [discriminate|].
  destruct (splitLines s); discriminate.
Qed.

Lemma concat_cons_char (sep : string) (c : ascii) (h : string) (t : list string) :
  String.concat sep (String c h :: t) = String c (String.concat sep (h :: t)).
Proof. destruct t; reflexivity. Qed.

(** Joining the lines of a text gives the text back. *)
Lemma joinLines_splitLines (s : string) : joinLines (splitLines s) = s.
Proof.
  unfold joinLines. induction s as [|c s IH]; [reflexivity|].
  simpl splitLines. destruct (Ascii.eqb_spec c newline) as [-> | Hc].
  - pose proof (splitLines_nonempty s) as Hne.
    destruct (splitLines s) as [|h t]; [contradiction|].
    simpl in *. now rewrite IH.
  - pose proof (splitLines_nonempty s) as Hne.
    destruct (splitLines s) as [|h t]; [contradiction|].
    rewrite concat_cons_char. now rewrite IH.
Qed.

Lemma append_assoc (a b c : string) :
  ((a ++ b) ++ c = a ++ (b ++ c))%string.
Proof. induction a as [|x a IH]; simpl; [reflexivity | now rewrite IH]. Qed.

Lemma joinLines_app (a b : list string) :
  a <> [] -> b <> [] ->
  joinLines (a ++ b) = (joinLines a ++ String newline (joinLines b))%string.
Proof.
  unfold joinLines. intros Ha Hb. induction a as [|x a IH]; [contradiction|].
  destruct a as [|y a].
  - simpl. destruct b; [contradiction | reflexivity].
  - change ((x :: y :: a) ++ b) with (x :: (y :: a) ++ b).
    change (String.concat (String newline "") (x :: (y :: a) ++ b))
      with (x ++ String newline "" ++ String.concat (String newline "") ((y :: a) ++ b))%string.
    rewrite IH by discriminate.
    change (String.concat (String newline "") (x :: y :: a))
      with (x ++ String newline "" ++ String.concat (String newline "") (y :: a))%string.
    rewrite !append_assoc. reflexivity.
Qed.

Lemma segmentLines_nonempty (m : HeightMapData) (ty : MoveType) (f : option Q)
    (segs : list Segment) :
  segs <> [] -> segmentLines ty f m segs [] <> [].
Proof.
  intro H. rewrite segmentLines_nil. destruct segs; [contradiction | discriminate].
Qed.

Lemma transformLine_nonempty (m : HeightMapData) (o : TransformOptions)
    (p : ParsedMove) (cx cy cz : Q) (ls : list string) :
  0 < segmentLength o ->
  transformLine p cx cy cz m o = Some ls -> ls <> [].
Proof.
  intros Hpos. unfold transformLine.
  assert (Hother : Some [originalLine p] = Some ls -> ls <> []).
  { intro H. injection H as <-. discriminate. }
  assert (Hmove :
    (if negb (hasZ p) && negb (hasX p) && negb (hasY p)
     then Some [originalLine p]
     else if negb (hasX p) && negb (hasY p)
     then Some [buildGcodeLine (type p) None None
                  (orElse (move_z p) cz + getZOffset cx cy (Some m)) (move_f p) false false]
     else if dist_leb (distance2D cx cy (orElse (move_x p) cx) (orElse (move_y p) cy))
               (segmentLength o)
     then Some [buildGcodeLine (type p) (Some (orElse (move_x p) cx))
                  (Some (orElse (move_y p) cy))
                  (orElse (move_z p) cz
                   + getZOffset (orElse (move_x p) cx) (orElse (move_y p) cy) (Some m))
                  (move_f p) (hasX p) (hasY p)]
     else match segmentLine cx cy cz (orElse (move_x p) cx) (orElse (move_y p) cy)
                  (orElse (move_z p) cz) (segmentLength o) with
          | None => None
          | Some segments => Some (segmentLines (type p) (move_f p) m segments [])
          end) = Some ls -> ls <> []).
  { destruct (negb (hasZ p) && negb (hasX p) && negb (hasY p)); [exact Hother|].
    destruct (negb (hasX p) && negb (hasY p)).
    { intro H. injection H as <-. discriminate. }
    destruct (dist_leb _ _) eqn:D.
    { intro H. injection H as <-. discriminate. }
    unfold segmentLine. rewrite D.
    destruct (Qeq_bool (segmentLength o) 0) eqn:E; [discriminate|].
    pose proof (long_distance_count _ _ Hpos D) as Hn.
    clear Hother. intro H. injection H as <-.
    apply segmentLines_nonempty. rewrite countFromOne_cons by lia. discriminate. }
  destruct (type p); first [exact Hother | exact Hmove].
Qed.

Lemma processLine_emits (m : HeightMapData) (o : TransformOptions)
    (st st' : LoopState) (line : string) :
  0 < segmentLength o ->
  processLine m o st line = Some st' ->
  exists t, transformedLines st' = transformedLines st ++ t /\ (1 <= List.length t)%nat.
Proof.
  intros Hpos H. destruct (reachesParser st line) eqn:R.
  - rewrite (processLine_parsed m o st line R) in H. cbv zeta in H.
    destruct (isMotion _).
    + destruct (transformLine _ _ _ _ m o) as [ls|] eqn:T; [|discriminate].
      injection H as <-. exists ls. split; [reflexivity|].
      pose proof (transformLine_nonempty _ _ _ _ _ _ _ Hpos T).
      destruct ls; [contradiction | simpl; lia].
    + injection H as <-. exists [line]. split; [|simpl; lia].
      simpl. now rewrite (proj1 (checkBounds_fields m o _ st)).
  - destruct (processLine_not_parsed m o st line R) as [b Hb].
    rewrite Hb in H. injection H as <-. exists [line]. split; [reflexivity | simpl; lia].
Qed.

Lemma processLines_emit (m : HeightMapData) (o : TransformOptions)
    (lines : list string) (st st' : LoopState) :
  0 < segmentLength o ->
  processLines m o st lines = Some st' ->
  exists t, transformedLines st' = transformedLines st ++ t
            /\ (List.length lines <= List.length t)%nat.
Proof.
  intros Hpos. revert st. induction lines as [|l ls IH]; intros st H.
  - injection H as <-. exists []. now rewrite app_nil_r.
  - simpl in H. destruct (processLine m o st l) as [st1|] eqn:E; [|discriminate].
    destruct (processLine_emits _ _ _ _ _ Hpos E) as [t1 [E1 L1]].
    destruct (IH _ H) as [t2 [E2 L2]].
    exists (t1 ++ t2). split.
    + now rewrite E2, E1, app_assoc.
    + rewrite length_app. simpl. lia.
Qed.

(** X16.  With a positive segment length the rewriter never drops a line: the
    result is the header followed by at least as many lines as the
    program has. *)
Theorem no_line_is_dropped (gcode : string) (m : HeightMapData) (o : TransformOptions) :
  0 < segmentLength o ->
  exists r out,
    transformGcode gcode m o = Some r
    /\ transformedGcode r = joinLines (headerLines m ++ out)
    /\ (List.length (splitLines gcode) <= List.length out)%nat.
Proof.
  intro Hpos. unfold transformGcode.
  assert (Hne : ~ segmentLength o == 0) by lra.
  destruct (processLines_total m o (splitLines gcode) (initialState m) Hne) as [st E].
  rewrite E. destruct (processLines_emit _ _ _ _ _ Hpos E) as [t [Et Lt]].
  exists (mkResult (joinLines (transformedLines st)) (warnings st)), t.
  split; [reflexivity|]. split; [|exact Lt].
  simpl. now rewrite Et.
Qed.

Lemma parse_flags (line : string) (cx cy cz : Q) :
  let p := parseGcodeLine line cx cy cz in
  let q := parseGcodeLine line 0 0 0 in
  type p = type q /\ hasX p = hasX q /\ hasY p = hasY q /\ hasZ p = hasZ q
  /\ originalLine p = line.
Proof.
  unfold parseGcodeLine.
  destruct (negb (moveCommand "0" (toUpperCase (trim line)))
            && negb (moveCommand "1" (toUpperCase (trim line)))); simpl; repeat split.
Qed.

Lemma checkBounds_no_axis (m : HeightMapData) (o : TransformOptions)
    (p : ParsedMove) (st : LoopState) :
  hasX p = false -> hasY p = false -> checkBounds m o p st = st.
Proof.
  intros HX HY. unfold checkBounds. rewrite HX, HY.
  now rewrite andb_false_r.
Qed.

Lemma processLine_copies (m : HeightMapData) (o : TransformOptions)
    (st : LoopState) (line : string) :
  carriesNoMove line = true ->
  exists st', processLine m o st line = Some st'
    /\ transformedLines st' = transformedLines st ++ [line]
    /\ warnings st' = warnings st.
Proof.
  intro H. destruct (reachesParser st line) eqn:R.
  - rewrite (processLine_parsed m o st line R). cbv zeta.
    destruct (parse_flags line (currentX st) (currentY st) (currentZ st))
      as [Ty [HX [HY [HZ HL]]]].
    set (p := parseGcodeLine line (currentX st) (currentY st) (currentZ st)) in *.
    unfold carriesNoMove in H. cbv zeta in H.
    unfold reachesParser in R.
    apply andb_prop in R as [R _]. apply andb_prop in R as [R R3].
    apply andb_prop in R as [R1 R2].
    apply negb_true_iff in R1, R2, R3. rewrite R1, R2, R3 in H. simpl in H.
    assert (Hm : isMotion p = isMotion (parseGcodeLine line 0 0 0)).
    { unfold isMotion. now rewrite Ty. }
    rewrite <- Hm, <- HX, <- HY, <- HZ in H.
    destruct (isMotion p) eqn:M.
    + simpl in H. apply andb_prop in H as [H HZ']. apply andb_prop in H as [HX' HY'].
      apply negb_true_iff in HX', HY', HZ'.
      assert (T : transformLine p (currentX st) (currentY st) (currentZ st) m o
                  = Some [line]).
      { unfold transformLine. rewrite HX', HY', HZ', HL. simpl.
        unfold isMotion in M. destruct (type p); try discriminate; reflexivity. }
      rewrite T. eexists. split; [reflexivity|]. simpl.
      rewrite (checkBounds_no_axis m o p st HX' HY'). now split.
    + destruct (parse_not_motion line (currentX st) (currentY st) (currentZ st) M)
        as [_ [HX' HY']]. fold p in HX', HY'.
      rewrite (checkBounds_no_axis m o p st HX' HY').
      eexists. split; [reflexivity|]. now split.
  - destruct (processLine_not_parsed m o st line R) as [b Hb].
    rewrite Hb. eexists. split; [reflexivity|]. now split.
Qed.

Lemma processLines_copy (m : HeightMapData) (o : TransformOptions)
    (lines : list string) (st : LoopState) :
  (forall l, In l lines -> carriesNoMove l = true) ->
  exists st', processLines m o st lines = Some st'
    /\ transformedLines st' = transformedLines st ++ lines
    /\ warnings st' = warnings st.
Proof.
  revert st. induction lines as [|l ls IH]; intros st H.
  - exists st. simpl. rewrite app_nil_r. now repeat split.
  - destruct (processLine_copies m o st l (H l (or_introl eq_refl)))
      as [st1 [E1 [T1 W1]]].
    destruct (IH st1 (fun l' Hl => H l' (or_intror Hl))) as [st2 [E2 [T2 W2]]].
    exists st2. simpl. rewrite E1. split; [exact E2|]. split.
    + rewrite T2, T1, <- app_assoc. reflexivity.
    + now rewrite W2.
Qed.

(** X17.  A program none of whose lines is a G0 or G1 move with a coordinate
    (comments, blank lines, mode switches, arcs, M-codes, feed or spindle
    words) comes back as the header followed by the program text itself,
    and without a warning, whatever the options. *)
Theorem program_without_moves_is_copied (gcode : string) (m : HeightMapData)
    (o : TransformOptions) :
  (forall l, In l (splitLines gcode) -> carriesNoMove l = true) ->
  transformGcode gcode m o
  = Some (mkResult (joinLines (headerLines m) ++ String newline gcode) []).
Proof.
  intro H. unfold transformGcode.
  destruct (processLines_copy m o (splitLines gcode) (initialState m) H)
    as [st [E [T W]]].
  rewrite E, T, W. simpl transformedLines. simpl warnings.
  rewrite joinLines_app; [| discriminate | apply splitLines_nonempty].
  now rewrite joinLines_splitLines.
Qed.

(** ** Segmentation, continued *)




Lemma countFromOne_nonpositive (n : Z) : (n <= 0)%Z -> countFromOne n = [].
Proof.
  intro H. unfold countFromOne.
  replace (Z.to_nat n) with O by lia. reflexivity.
Qed.

Lemma dist_ceil_div_negative (d2 len : Q) :
  len < 0 -> (dist_ceil_div d2 len <= 0)%Z.
Proof.
  intro H. unfold dist_ceil_div.
  assert (E : Qle_bool 0 len = false) by (apply Qle_bool_false; lra).
  rewrite E. pose proof (Z.sqrt_nonneg (Qfloor (d2 / (len * len)))). lia.
Qed.

(** X19.  With a negative segment length a G0 or G1 move that carries an X or a
    Y word is dropped: being longer than the segment length it is
    subdivided into no segment at all, so nothing is emitted for it, while
    the tracked position still advances to its target. *)
Theorem negative_segment_length_drops_move (m : HeightMapData) (o : TransformOptions)
    (st : LoopState) (line : string) :
  let parsed := parseGcodeLine line (currentX st) (currentY st) (currentZ st) in
  segmentLength o < 0 ->
  reachesParser st line = true ->
  isMotion parsed = true ->
  hasX parsed || hasY parsed = true ->
  exists st',
    processLine m o st line = Some st'
    /\ transformedLines st' = transformedLines st
    /\ currentX st' = orElse (move_x parsed) (currentX st)
    /\ currentY st' = orElse (move_y parsed) (currentY st)
    /\ currentZ st' = orElse (move_z parsed) (currentZ st).
Proof.
  intros parsed Hneg R M HXY.
  rewrite (processLine_parsed m o st line R). cbv zeta. fold parsed. rewrite M.
  assert (T : transformLine parsed (currentX st) (currentY st) (currentZ st) m o
              = Some []).
  { unfold transformLine.
    assert (A : negb (hasX parsed) && negb (hasY parsed) = false).
    { destruct (hasX parsed), (hasY parsed); try reflexivity; discriminate. }
    assert (B : negb (hasZ parsed) && negb (hasX parsed) && negb (hasY parsed) = false).
    { rewrite <- andb_assoc, A. apply andb_false_r. }
    assert (D : forall d2, dist_leb d2 (segmentLength o) = false).
    { intro d2. unfold dist_leb.
      assert (E : Qle_bool 0 (segmentLength o) = false) by (apply Qle_bool_false; lra).
      now rewrite E. }
    assert (E : Qeq_bool (segmentLength o) 0 = false) by (apply Qeq_bool_false; lra).
    rewrite A, B, D. unfold segmentLine. rewrite D, E.
    rewrite countFromOne_nonpositive by (apply dist_ceil_div_negative; exact Hneg).
    unfold isMotion in M. destruct (type parsed); try discriminate; reflexivity. }
  rewrite T. eexists. split; [reflexivity|]. simpl.
  rewrite app_nil_r. now repeat split.
Qed.

(** X20.  With the bounds warning switched off, as every caller of the rewriter
    in the tool does, no warning is ever returned. *)
Theorem no_warning_when_switched_off (gcode : string) (m : HeightMapData)
    (o : TransformOptions) :
  warnOutsideBounds o = false ->
  (forall r, transformGcode gcode m o = Some r -> resultWarnings r = [])
  /\ (~ segmentLength o == 0 -> exists r, transformGcode gcode m o = Some r).
Proof.
  intro Hoff. split.
  - intros r H. unfold transformGcode in H.
    destruct (processLines m o (initialState m) (splitLines gcode)) as [st|] eqn:E;
      [|discriminate].
    injection H as <-. simpl.
    destruct (warnings_from m o (splitLines gcode) (initialState m) st eq_refl eq_refl E) as [[W _] | [_ [W _]]];
      [exact W | congruence].
  - intro Hne. unfold transformGcode.
    destruct (processLines_total m o (splitLines gcode) (initialState m) Hne) as [st E].
    rewrite E. now eexists.
Qed.

(** ** The bounds validation *)

Lemma scan_minX (lines : list string) (e : Extent) :
  ext_minX (fold_left scanLine lines e)
  = fold_left extMin (scannedValues "X" lines) (ext_minX e).
Proof.
  revert e. induction lines as [|l ls IH]; intro e; [reflexivity|].
  simpl fold_left at 1. rewrite IH. unfold scannedValues. simpl flat_map.
  rewrite fold_left_app. f_equal.
  unfold scanLine, scannedValue.
  destruct (matchWordIgnoreCase "X" l), (matchWordIgnoreCase "Y" l); reflexivity.
Qed.

Lemma scan_maxX (lines : list string) (e : Extent) :
  ext_maxX (fold_left scanLine lines e)
  = fold_left extMax (scannedValues "X" lines) (ext_maxX e).
Proof.
  revert e. induction lines as [|l ls IH]; intro e; [reflexivity|].
  simpl fold_left at 1. rewrite IH. unfold scannedValues. simpl flat_map.
  rewrite fold_left_app. f_equal.
  unfold scanLine, scannedValue.
  destruct (matchWordIgnoreCase "X" l), (matchWordIgnoreCase "Y" l); reflexivity.
Qed.

Lemma scan_minY (lines : list string) (e : Extent) :
  ext_minY (fold_left scanLine lines e)
  = fold_left extMin (scannedValues "Y" lines) (ext_minY e).
Proof.
  revert e. induction lines as [|l ls IH]; intro e; [reflexivity|].
  simpl fold_left at 1. rewrite IH. unfold scannedValues. simpl flat_map.
  rewrite fold_left_app. f_equal.
  unfold scanLine, scannedValue.
  destruct (matchWordIgnoreCase "X" l), (matchWordIgnoreCase "Y" l); reflexivity.
Qed.

Lemma scan_maxY (lines : list string) (e : Extent) :
  ext_maxY (fold_left scanLine lines e)
  = fold_left extMax (scannedValues "Y" lines) (ext_maxY e).
Proof.
  revert e. induction lines as [|l ls IH]; intro e; [reflexivity|].
  simpl fold_left at 1. rewrite IH. unfold scannedValues. simpl flat_map.
  rewrite fold_left_app. f_equal.
  unfold scanLine, scannedValue.
  destruct (matchWordIgnoreCase "X" l), (matchWordIgnoreCase "Y" l); reflexivity.
Qed.

Lemma In_scannedValues (letter : ascii) (lines : list string) (v : Q) :
  In v (scannedValues letter lines)
  <-> exists l, In l lines /\ scannedValue letter l = Some v.
Proof.
  unfold scannedValues. rewrite in_flat_map. split.
  - intros [l [Hl Hv]]. exists l. split; [exact Hl|].
    destruct (scannedValue letter l); [|contradiction].
    destruct Hv as [-> | []]. reflexivity.
  - intros [l [Hl Hv]]. exists l. split; [exact Hl|]. rewrite Hv. now left.
Qed.

Lemma Qmin_one_of (a b : Q) : Qmin a b = a \/ Qmin a b = b.
Proof. unfold Qmin, GenericMinMax.gmin. destruct (a ?= b); auto. Qed.

Lemma Qmax_one_of (a b : Q) : Qmax a b = a \/ Qmax a b = b.
Proof. unfold Qmax, GenericMinMax.gmax. destruct (a ?= b); auto. Qed.

(** The running minimum over finite values: a lower bound of the values
    and of the start, and one of them. *)
Lemma fold_extMin_finite (vs : list Q) (q : Q) :
  exists lo, fold_left extMin vs (Finite q) = Finite lo
    /\ lo <= q /\ (forall v, In v vs -> lo <= v)
    /\ (lo = q \/ In lo vs).
Proof.
  revert q. induction vs as [|a vs IH]; intro q.
  - exists q. repeat split; [lra | intros v [] | now left].
  - simpl. destruct (IH (Qmin q a)) as [lo [E [L [A I]]]].
    exists lo. split; [exact E|].
    pose proof (Q.le_min_l q a). pose proof (Q.le_min_r q a).
    split; [lra|]. split.
    + intros v [<- | Hv]; [lra | now apply A].
    + destruct I as [-> | I]; [| right; now right].
      destruct (Qmin_one_of q a) as [-> | ->]; [now left | right; now left].
Qed.

Lemma fold_extMax_finite (vs : list Q) (q : Q) :
  exists hi, fold_left extMax vs (Finite q) = Finite hi
    /\ q <= hi /\ (forall v, In v vs -> v <= hi)
    /\ (hi = q \/ In hi vs).
Proof.
  revert q. induction vs as [|a vs IH]; intro q.
  - exists q. repeat split; [lra | intros v [] | now left].
  - simpl. destruct (IH (Qmax q a)) as [hi [E [L [A I]]]].
    exists hi. split; [exact E|].
    pose proof (Q.le_max_l q a). pose proof (Q.le_max_r q a).
    split; [lra|]. split.
    + intros v [<- | Hv]; [lra | now apply A].
    + destruct I as [-> | I]; [| right; now right].
      destruct (Qmax_one_of q a) as [-> | ->]; [now left | right; now left].
Qed.

Lemma fold_extMin_start (vs : list Q) :
  match vs with
  | [] => fold_left extMin vs PosInfinity = PosInfinity
  | _ => exists lo, fold_left extMin vs PosInfinity = Finite lo
           /\ (forall v, In v vs -> lo <= v) /\ In lo vs
  end.
Proof.
  destruct vs as [|a vs]; [reflexivity|].
  simpl. destruct (fold_extMin_finite vs a) as [lo [E [L [A I]]]].
  exists lo. split; [exact E|]. split.
  - intros v [<- | Hv]; [exact L | now apply A].
  - destruct I as [-> | I]; [now left | now right].
Qed.

Lemma fold_extMax_start (vs : list Q) :
  match vs with
  | [] => fold_left extMax vs NegInfinity = NegInfinity
  | _ => exists hi, fold_left extMax vs NegInfinity = Finite hi
           /\ (forall v, In v vs -> v <= hi) /\ In hi vs
  end.
Proof.
  destruct vs as [|a vs]; [reflexivity|].
  simpl. destruct (fold_extMax_finite vs a) as [hi [E [L [A I]]]].
  exists hi. split; [exact E|]. split.
  - intros v [<- | Hv]; [exact L | now apply A].
  - destruct I as [-> | I]; [now left | now right].
Qed.

(** The test on one axis: both comparisons hold exactly when every value
    read on that axis lies between the two bounds. *)
Lemma axis_within (vs : list Q) (lo hi : Q) :
  extGeb (fold_left extMin vs PosInfinity) lo
  && extLeb (fold_left extMax vs NegInfinity) hi = true
  <-> forall v, In v vs -> lo <= v /\ v <= hi.
Proof.
  pose proof (fold_extMin_start vs) as Hmin.
  pose proof (fold_extMax_start vs) as Hmax.
  destruct vs as [|a vs].
  - rewrite Hmin, Hmax. simpl. split; [intros _ v [] | reflexivity].
  - destruct Hmin as [l [El [Al Il]]]. destruct Hmax as [h [Eh [Ah Ih]]].
    rewrite El, Eh. simpl extGeb. simpl extLeb.
    rewrite andb_true_iff, geb_true, Qle_bool_iff. split.
    + intros [H1 H2] v Hv. specialize (Al v Hv). specialize (Ah v Hv). lra.
    + intro H. split; [apply (H l Il) | apply (H h Ih)].
Qed.

Lemma valid_spec (gcode : string) (m : HeightMapData) :
  valid (validateGcodeBounds gcode m) = true
  <-> (forall v, In v (scannedValues "X" (splitLines gcode)) ->
         minX (bounds m) <= v /\ v <= maxX (bounds m))
      /\ (forall v, In v (scannedValues "Y" (splitLines gcode)) ->
            minY (bounds m) <= v /\ v <= maxY (bounds m)).
Proof.
  unfold validateGcodeBounds. cbv zeta. simpl valid.
  rewrite scan_minX, scan_maxX, scan_minY, scan_maxY. simpl.
  now rewrite <- andb_assoc, andb_true_iff, !axis_within.
Qed.

(** X21.  The program is reported valid exactly when every X value and every Y
    value read off its lines lies within the bounds of the map; a program
    without coordinates is valid. *)
Theorem valid_iff_every_coordinate_within (gcode : string) (m : HeightMapData) :
  valid (validateGcodeBounds gcode m) = true
  <-> (forall l v, In l (splitLines gcode) -> scannedValue "X" l = Some v ->
         minX (bounds m) <= v /\ v <= maxX (bounds m))
      /\ (forall l v, In l (splitLines gcode) -> scannedValue "Y" l = Some v ->
            minY (bounds m) <= v /\ v <= maxY (bounds m)).
Proof.
  rewrite valid_spec.
  split; intros [HX HY]; split.
  - intros l v Hl Hv. apply HX. apply In_scannedValues. now exists l.
  - intros l v Hl Hv. apply HY. apply In_scannedValues. now exists l.
  - intros v Hv. apply In_scannedValues in Hv as [l [Hl Hv]]. now apply (HX l).
  - intros v Hv. apply In_scannedValues in Hv as [l [Hl Hv]]. now apply (HY l).
Qed.

(** ** Trimming and the coordinate pattern *)

Lemma isWhiteSpace_upperChar (c : ascii) :
  isWhiteSpace (upperChar c) = isWhiteSpace c.
Proof. destruct c as [[] [] [] [] [] [] [] []]; reflexivity. Qed.

Lemma isDigit_not_white (c : ascii) : isDigit c = true -> isWhiteSpace c = false.
Proof. destruct c as [[] [] [] [] [] [] [] []]; vm_compute; congruence. Qed.

Lemma white_upperChar (c : ascii) : isWhiteSpace c = true -> upperChar c = c.
Proof. destruct c as [[] [] [] [] [] [] [] []]; vm_compute; congruence. Qed.

Lemma toUpperCase_trimStart (s : string) :
  toUpperCase (trimStart s) = trimStart (toUpperCase s).
Proof.
  induction s as [|c s IH]; [reflexivity|].
  simpl. rewrite isWhiteSpace_upperChar.
  destruct (isWhiteSpace c); [exact IH | reflexivity].
Qed.

Lemma toUpperCase_trimEnd (s : string) :
  toUpperCase (trimEnd s) = trimEnd (toUpperCase s).
Proof.
  induction s as [|c s IH]; [reflexivity|].
  simpl. rewrite <- IH, isWhiteSpace_upperChar.
  destruct (trimEnd s); simpl; [destruct (isWhiteSpace c)|]; reflexivity.
Qed.

Lemma toUpperCase_trim (s : string) : toUpperCase (trim s) = trim (toUpperCase s).
Proof. unfold trim. now rewrite toUpperCase_trimEnd, toUpperCase_trimStart. Qed.

Lemma trimEnd_not_white (c : ascii) (s : string) :
  isWhiteSpace c = false -> trimEnd (String c s) = String c (trimEnd s).
Proof. intro H. simpl. rewrite H. now destruct (trimEnd s). Qed.

Lemma trimEnd_head (c : ascii) (s : string) :
  trimEnd (String c s) = EmptyString \/ exists r, trimEnd (String c s) = String c r.
Proof.
  simpl. destruct (trimEnd s).
  - destruct (isWhiteSpace c); [now left | right; now eexists].
  - right. now eexists.
Qed.

Lemma takeDigits_trimEnd (s : string) :
  takeDigits (trimEnd s) = (fst (takeDigits s), trimEnd (snd (takeDigits s))).
Proof.
  induction s as [|c s IH]; [reflexivity|].
  destruct (isDigit c) eqn:D.
  - rewrite (trimEnd_not_white c s (isDigit_not_white c D)).
    simpl. rewrite D, IH. now destruct (takeDigits s).
  - assert (E : takeDigits (String c s) = (EmptyString, String c s)).
    { simpl. now rewrite D. }
    rewrite E. simpl fst. simpl snd.
    destruct (trimEnd_head c s) as [-> | [r ->]]; [reflexivity|].
    simpl. now rewrite D.
Qed.

(** The number pattern, with its two literal characters tested by
    [Ascii.eqb]. *)
Lemma numberAt_tail (sign ds s2 : string) :
  match s2 with
  | String "." s3 => Some (sign ++ ds ++ "." ++ fst (takeDigits s3))%string
  | _ => Some (sign ++ ds)%string
  end
  = match s2 with
    | String c s3 =>
        if Ascii.eqb c "."
        then Some (sign ++ ds ++ "." ++ fst (takeDigits s3))%string
        else Some (sign ++ ds)%string
    | EmptyString => Some (sign ++ ds)%string
    end.
Proof.
  destruct s2 as [|c s3]; [reflexivity|].
  destruct c as [[] [] [] [] [] [] [] []]; reflexivity.
Qed.

Lemma numberAt_sign (minus : bool) (s : string) :
  match s with
  | String "-" s' => if minus then ("-"%string, s') else (EmptyString, s)
  | _ => (EmptyString, s)
  end
  = match s with
    | String c s' =>
        if Ascii.eqb c "-" && minus then ("-"%string, s') else (EmptyString, s)
    | EmptyString => (EmptyString, s)
    end.
Proof.
  destruct s as [|c s']; [reflexivity|].
  destruct c as [[] [] [] [] [] [] [] []]; reflexivity.
Qed.

Lemma numberAt_digits_trimEnd (sign s1 : string) :
  (let (ds, s2) := takeDigits (trimEnd s1) in
   match ds with
   | EmptyString => None
   | _ => match s2 with
          | String "." s3 => Some (sign ++ ds ++ "." ++ fst (takeDigits s3))%string
          | _ => Some (sign ++ ds)%string
          end
   end)
  = (let (ds, s2) := takeDigits s1 in
     match ds with
     | EmptyString => None
     | _ => match s2 with
            | String "." s3 => Some (sign ++ ds ++ "." ++ fst (takeDigits s3))%string
            | _ => Some (sign ++ ds)%string
            end
     end).
Proof.
  rewrite takeDigits_trimEnd. destruct (takeDigits s1) as [ds s2]. simpl fst. simpl snd.
  destruct ds as [|d ds]; [reflexivity|].
  rewrite !numberAt_tail.
  destruct s2 as [|c s3]; [reflexivity|].
  destruct (Ascii.eqb_spec c ".") as [-> | Hc].
  - rewrite trimEnd_not_white by reflexivity. rewrite Ascii.eqb_refl.
    rewrite takeDigits_trimEnd. reflexivity.
  - destruct (trimEnd_head c s3) as [-> | [r ->]]; [reflexivity|].
    destruct (Ascii.eqb_spec c "."); [contradiction | reflexivity].
Qed.

Lemma numberAt_trimEnd (minus : bool) (s : string) :
  numberAt minus (trimEnd s) = numberAt minus s.
Proof.
  unfold numberAt. rewrite !numberAt_sign.
  destruct s as [|c s']; [reflexivity|].
  pose proof (numberAt_digits_trimEnd EmptyString (String c s')) as P.
  destruct (Ascii.eqb_spec c "-") as [-> | Hc].
  - rewrite trimEnd_not_white in * by reflexivity. rewrite Ascii.eqb_refl.
    destruct minus; simpl andb; cbv iota.
    + apply numberAt_digits_trimEnd.
    + exact P.
  - simpl andb. cbv iota.
    destruct (trimEnd_head c s') as [E | [r E]]; rewrite E in *.
    + exact P.
    + destruct (Ascii.eqb_spec c "-"); [contradiction|].
      simpl andb. cbv iota. exact P.
Qed.

Lemma matchWord_trimEnd (letter : ascii) (minus : bool) (s : string) :
  matchWord letter minus (trimEnd s) = matchWord letter minus s.
Proof.
  induction s as [|c s IH]; [reflexivity|].
  destruct (trimEnd_head c s) as [E | [r E]].
  - rewrite E. simpl matchWord.
    assert (Es : trimEnd s = EmptyString).
    { simpl in E. destruct (trimEnd s); [reflexivity | discriminate]. }
    rewrite <- IH, Es. rewrite <- (numberAt_trimEnd minus s), Es.
    simpl. now destruct (Ascii.eqb c letter).
  - assert (Er : r = trimEnd s \/ (trimEnd s = EmptyString /\ r = EmptyString)).
    { simpl in E. destruct (trimEnd s).
      - destruct (isWhiteSpace c); [discriminate|]. injection E as <-. now right.
      - injection E as <-. now left. }
    rewrite E. simpl matchWord.
    rewrite <- IH, <- (numberAt_trimEnd minus s).
    destruct Er as [-> | [Es ->]]; [reflexivity | now rewrite Es].
Qed.

Lemma matchWord_trimStart (letter : ascii) (minus : bool) (s : string) :
  isWhiteSpace letter = false ->
  matchWord letter minus (trimStart s) = matchWord letter minus s.
Proof.
  intro H. induction s as [|c s IH]; [reflexivity|].
  simpl trimStart. destruct (isWhiteSpace c) eqn:W; [|reflexivity].
  rewrite IH. simpl. destruct (Ascii.eqb_spec c letter) as [-> | _]; [congruence | reflexivity].
Qed.

Lemma matchWord_trim_upper (letter : ascii) (minus : bool) (s : string) :
  isWhiteSpace letter = false ->
  matchWord letter minus (toUpperCase (trim s)) = matchWord letter minus (toUpperCase s).
Proof.
  intro H. rewrite toUpperCase_trim. unfold trim.
  now rewrite matchWord_trimEnd, matchWord_trimStart.
Qed.

(** The parser and the validation read the same number after an axis
    letter: trimming the line changes nothing for the coordinate pattern. *)
Lemma wordValue_scannedValue (letter : ascii) (line : string) :
  isWhiteSpace letter = false ->
  wordValue letter line = scannedValue letter line.
Proof.
  intro H. unfold wordValue, scannedValue, matchWordIgnoreCase.
  now rewrite matchWord_trim_upper.
Qed.

(** ** The reported extent, and the validation against the rewriter *)



Lemma isWithinBounds_true (x y : Q) (m : HeightMapData) :
  isWithinBounds x y m = true
  <-> (minX (bounds m) <= x /\ x <= maxX (bounds m))
      /\ (minY (bounds m) <= y /\ y <= maxY (bounds m)).
Proof.
  unfold isWithinBounds. rewrite !andb_true_iff, !geb_true, !Qle_bool_iff. tauto.
Qed.

Lemma processLine_inside (m : HeightMapData) (o : TransformOptions)
    (st st' : LoopState) (line : string) :
  (forall v, scannedValue "X" line = Some v ->
     minX (bounds m) <= v /\ v <= maxX (bounds m)) ->
  (forall v, scannedValue "Y" line = Some v ->
     minY (bounds m) <= v /\ v <= maxY (bounds m)) ->
  insideSoFar m st ->
  processLine m o st line = Some st' ->
  insideSoFar m st'.
Proof.
  intros HX HY [Hin [Hw Hb]] H.
  destruct (reachesParser st line) eqn:R.
  - rewrite (processLine_parsed m o st line R) in H. cbv zeta in H.
    set (p := parseGcodeLine line (currentX st) (currentY st) (currentZ st)) in *.
    destruct (isMotion p) eqn:M.
    + destruct (parse_motion line (currentX st) (currentY st) (currentZ st) M)
        as [Px [Py _]]. fold p in Px, Py.
      rewrite (wordValue_scannedValue "X" line eq_refl) in Px.
      rewrite (wordValue_scannedValue "Y" line eq_refl) in Py.
      assert (T : isWithinBounds (orElse (move_x p) (currentX st))
                                 (orElse (move_y p) (currentY st)) m = true).
      { apply isWithinBounds_true in Hin as [Hx Hy].
        apply isWithinBounds_true. rewrite Px, Py. simpl. split.
        - destruct (scannedValue "X" line) as [v|]; simpl; [now apply HX | exact Hx].
        - destruct (scannedValue "Y" line) as [v|]; simpl; [now apply HY | exact Hy]. }
      assert (C : checkBounds m o p st = st).
      { unfold checkBounds. rewrite T. simpl.
        now destruct (warnOutsideBounds o && negb (outsideBoundsWarned st)
                      && (hasX p || hasY p)). }
      rewrite C in H.
      destruct (transformLine p _ _ _ m o); [|discriminate].
      injection H as <-. split; [exact T | now split].
    + destruct (parse_not_motion line (currentX st) (currentY st) (currentZ st) M)
        as [_ [Hx Hy]]. fold p in Hx, Hy.
      rewrite (checkBounds_no_axis m o p st Hx Hy) in H.
      injection H as <-. now split.
  - destruct (processLine_not_parsed m o st line R) as [b Eb].
    rewrite Eb in H. injection H as <-. now split.
Qed.

Lemma processLines_inside (m : HeightMapData) (o : TransformOptions)
    (lines : list string) (st st' : LoopState) :
  (forall l v, In l lines -> scannedValue "X" l = Some v ->
     minX (bounds m) <= v /\ v <= maxX (bounds m)) ->
  (forall l v, In l lines -> scannedValue "Y" l = Some v ->
     minY (bounds m) <= v /\ v <= maxY (bounds m)) ->
  insideSoFar m st ->
  processLines m o st lines = Some st' ->
  insideSoFar m st'.
Proof.
  revert st. induction lines as [|l ls IH]; intros st HX HY Hin H.
  - injection H as <-. exact Hin.
  - simpl in H. destruct (processLine m o st l) as [st1|] eqn:E; [|discriminate].
    apply (IH st1); trivial.
    + intros l' v Hl. apply HX. now right.
    + intros l' v Hl. apply HY. now right.
    + apply (processLine_inside m o st st1 l); trivial.
      * intro v. apply HX. now left.
      * intro v. apply HY. now left.
Qed.

(** X23.  The validation agrees with the rewriter: a program reported valid
    for a map whose bounds contain the origin, where the rewriter starts,
    is rewritten without a bounds warning. *)
Theorem validated_program_raises_no_warning (gcode : string) (m : HeightMapData)
    (o : TransformOptions) :
  valid (validateGcodeBounds gcode m) = true ->
  isWithinBounds 0 0 m = true ->
  (forall r, transformGcode gcode m o = Some r -> resultWarnings r = [])
  /\ (~ segmentLength o == 0 -> exists r, transformGcode gcode m o = Some r).
Proof.
  intros V Horigin. split.
  - intros r H. unfold transformGcode in H.
    destruct (processLines m o (initialState m) (splitLines gcode)) as [st|] eqn:E;
      [|discriminate].
    injection H as <-. simpl.
    apply valid_spec in V as [HX HY].
    assert (I : insideSoFar m (initialState m)) by (now split).
    apply (processLines_inside m o (splitLines gcode) (initialState m) st); trivial.
    + intros l v Hl Hv. apply HX. apply In_scannedValues. now exists l.
    + intros l v Hl Hv. apply HY. apply In_scannedValues. now exists l.
  - intro Hne. unfold transformGcode.
    destruct (processLines_total m o (splitLines gcode) (initialState m) Hne) as [st E].
    rewrite E. now eexists.
Qed.

(** ** Printed numbers read back *)


































(** ** Case and margins *)

Lemma upperChar_idempotent (c : ascii) : upperChar (upperChar c) = upperChar c.
Proof. destruct c as [[] [] [] [] [] [] [] []]; reflexivity. Qed.

Lemma toUpperCase_idempotent (s : string) :
  toUpperCase (toUpperCase s) = toUpperCase s.
Proof.
  induction s as [|c s IH]; [reflexivity|].
  simpl. now rewrite upperChar_idempotent, IH.
Qed.

Lemma trimEnd_idempotent (s : string) : trimEnd (trimEnd s) = trimEnd s.
Proof.
  induction s as [|c s IH]; [reflexivity|].
  simpl. destruct (trimEnd s) as [|d r] eqn:E.
  - destruct (isWhiteSpace c) eqn:W; [reflexivity|]. simpl. now rewrite W.
  - change (trimEnd (String c (String d r)))
      with (match trimEnd (String d r) with
            | EmptyString => if isWhiteSpace c then EmptyString else String c EmptyString
            | t => String c t
            end).
    now rewrite IH.
Qed.

Lemma trimStart_fixed (s : string) :
  headIs isWhiteSpace s = false -> trimStart s = s.
Proof. destruct s as [|c s]; [reflexivity|]. simpl. now intros ->. Qed.

Lemma trimStart_head (s : string) : headIs isWhiteSpace (trimStart s) = false.
Proof.
  induction s as [|c s IH]; [reflexivity|].
  simpl. destruct (isWhiteSpace c) eqn:W; [exact IH | simpl; exact W].
Qed.

Lemma trimEnd_keeps_head (s : string) :
  headIs isWhiteSpace s = false -> headIs isWhiteSpace (trimEnd s) = false.
Proof.
  destruct s as [|c s]; [reflexivity|]. simpl. intro W.
  rewrite W. destruct (trimEnd s); simpl; exact W.
Qed.

Lemma trim_idempotent (s : string) : trim (trim s) = trim s.
Proof.
  unfold trim.
  rewrite (trimStart_fixed (trimEnd (trimStart s)))
    by (apply trimEnd_keeps_head, trimStart_head).
  apply trimEnd_idempotent.
Qed.

(** X25.  The parser ignores the case of the letters and the white space
    around the line: the line in upper case without its margins is parsed
    to the same type, the same coordinates and feed, and the same
    flags. *)
Theorem parser_ignores_case_and_margins (line : string) (cx cy cz : Q) :
  let p := parseGcodeLine line cx cy cz in
  let q := parseGcodeLine (toUpperCase (trim line)) cx cy cz in
  type q = type p
  /\ move_x q = move_x p /\ move_y q = move_y p /\ move_z q = move_z p
  /\ move_f q = move_f p
  /\ hasX q = hasX p /\ hasY q = hasY p /\ hasZ q = hasZ p.
Proof.
  assert (E : toUpperCase (trim (toUpperCase (trim line))) = toUpperCase (trim line)).
  { rewrite (toUpperCase_trim (toUpperCase (trim line))).
    rewrite toUpperCase_idempotent, toUpperCase_trim.
    apply trim_idempotent. }
  cbv zeta. unfold parseGcodeLine. rewrite E.
  destruct (negb (moveCommand "0" (toUpperCase (trim line)))
            && negb (moveCommand "1" (toUpperCase (trim line))));
    simpl; repeat split.
Qed.

(** ** The colour scale of the grid view *)

Lemma fold_Qmin_spec (zs : list Q) (z : Q) :
  fold_left Qmin zs z <= z
  /\ (forall v, In v zs -> fold_left Qmin zs z <= v)
  /\ (fold_left Qmin zs z = z \/ In (fold_left Qmin zs z) zs).
Proof.
  revert z. induction zs as [|a zs IH]; intro z.
  - simpl. repeat split; [lra | intros v [] | now left].
  - simpl. destruct (IH (Qmin z a)) as [L [A I]].
    pose proof (Q.le_min_l z a). pose proof (Q.le_min_r z a).
    split; [lra|]. split.
    + intros v [<- | Hv]; [lra | now apply A].
    + destruct I as [I | I]; [| right; now right].
      rewrite I. destruct (Qmin_one_of z a) as [-> | ->]; [now left | right; now left].
Qed.

Lemma fold_Qmax_spec (zs : list Q) (z : Q) :
  z <= fold_left Qmax zs z
  /\ (forall v, In v zs -> v <= fold_left Qmax zs z)
  /\ (fold_left Qmax zs z = z \/ In (fold_left Qmax zs z) zs).
Proof.
  revert z. induction zs as [|a zs IH]; intro z.
  - simpl. repeat split; [lra | intros v [] | now left].
  - simpl. destruct (IH (Qmax z a)) as [L [A I]].
    pose proof (Q.le_max_l z a). pose proof (Q.le_max_r z a).
    split; [lra|]. split.
    + intros v [<- | Hv]; [lra | now apply A].
    + destruct I as [I | I]; [| right; now right].
      rewrite I. destruct (Qmax_one_of z a) as [-> | ->]; [now left | right; now left].
Qed.

Lemma zScale_encloses (m : HeightMapData) (p : HeightMapPoint) :
  In p (points m) ->
  fst (zScale (Some m)) <= pt_z p /\ pt_z p <= snd (zScale (Some m)).
Proof.
  intro Hp. unfold zScale.
  apply (in_map pt_z) in Hp.
  destruct (map pt_z (points m)) as [|z zs]; [destruct Hp|].
  simpl fst. simpl snd.
  destruct (fold_Qmin_spec zs z) as [L1 [A1 _]].
  destruct (fold_Qmax_spec zs z) as [L2 [A2 _]].
  destruct Hp as [<- | Hp]; [now split|].
  split; [now apply A1 | now apply A2].
Qed.

Lemma mathRound_range (x : Q) (k : Z) :
  0 <= x -> x <= inject_Z k -> (0 <= mathRound x <= k)%Z.
Proof.
  intros H0 Hk. unfold mathRound.
  pose proof (Qfloor_le (x + (1 # 2))) as F1.
  pose proof (Qlt_floor (x + (1 # 2))) as F2.
  rewrite inject_Z_plus in F2.
  set (n := Qfloor (x + (1 # 2))) in *.
  assert (A : inject_Z n <= inject_Z k + (1 # 2)) by lra.
  assert (B : - (1 # 2) < inject_Z n) by (unfold inject_Z at 2 in F2; lra).
  unfold Qle in A. unfold Qlt in B. simpl in A, B. lia.
Qed.

Lemma mathRound_integer (x : Q) (k : Z) : x == inject_Z k -> mathRound x = k.
Proof.
  intro E. unfold mathRound.
  rewrite (Qfloor_comp (x + (1 # 2)) (inject_Z k + (1 # 2))) by (now rewrite E).
  pose proof (Qfloor_le (inject_Z k + (1 # 2))) as F1.
  pose proof (Qlt_floor (inject_Z k + (1 # 2))) as F2.
  rewrite inject_Z_plus in F2.
  set (n := Qfloor (inject_Z k + (1 # 2))) in *.
  assert (A : inject_Z n <= inject_Z k + (1 # 2)) by lra.
  assert (B : inject_Z k - (1 # 2) < inject_Z n) by (unfold inject_Z at 3 in F2; lra).
  unfold Qle in A. unfold Qlt in B. simpl in A, B. lia.
Qed.

(** X26.  Every height stored in the map lies on the colour scale, and on a
    scale that is not flat it gets colour channels in range: red and blue
    between 0 and 255, green between 0 and 200; a lowest point is drawn
    pure blue and a highest point pure red. *)
Theorem stored_heights_get_valid_colours (m : HeightMapData) (p : HeightMapPoint) :
  In p (points m) ->
  let minZ := fst (zScale (Some m)) in
  let maxZ := snd (zScale (Some m)) in
  let c := zColorChannels minZ maxZ (pt_z p) in
  minZ <= pt_z p /\ pt_z p <= maxZ
  /\ (~ maxZ == minZ ->
      (0 <= red c <= 255)%Z /\ (0 <= green c <= 200)%Z /\ (0 <= blue c <= 255)%Z
      /\ (pt_z p == minZ -> getZColor minZ maxZ (pt_z p) = "rgb(0, 0, 255)"%string)
      /\ (pt_z p == maxZ -> getZColor minZ maxZ (pt_z p) = "rgb(255, 0, 0)"%string)).
Proof.
  intros Hp minZ maxZ c.
  destruct (zScale_encloses m p Hp) as [Hlo Hhi]. fold minZ in Hlo. fold maxZ in Hhi.
  split; [exact Hlo|]. split; [exact Hhi|]. intro Hne.
  assert (Hr : 0 < maxZ - minZ).
  { destruct (Qlt_le_dec minZ maxZ) as [H | H]; [lra|].
    exfalso. apply Hne. lra. }
  set (n := (pt_z p - minZ) / (maxZ - minZ)).
  assert (N0 : 0 <= n) by (apply Qle_shift_div_l; lra).
  assert (N1 : n <= 1) by (apply Qle_shift_div_r; lra).
  assert (Ab : Qabs (n - (1 # 2)) <= 1 # 2) by (apply Qabs_Qle_condition; split; lra).
  pose proof (Qabs_nonneg (n - (1 # 2))) as An.
  assert (G0 : 0 <= (1 - Qabs (n - (1 # 2)) * 2) * 200) by lra.
  assert (G1 : (1 - Qabs (n - (1 # 2)) * 2) * 200 <= inject_Z 200)
    by (unfold inject_Z; lra).
  assert (R0 : 0 <= n * 255) by lra.
  assert (R1 : n * 255 <= inject_Z 255) by (unfold inject_Z; lra).
  assert (B0 : 0 <= (1 - n) * 255) by lra.
  assert (B1 : (1 - n) * 255 <= inject_Z 255) by (unfold inject_Z; lra).
  assert (Hb : Qeq_bool maxZ minZ = false) by (now apply Qeq_bool_false).
  assert (Hc : c = mkRgb (mathRound (n * 255))
                         (mathRound ((1 - Qabs (n - (1 # 2)) * 2) * 200))
                         (mathRound ((1 - n) * 255))) by reflexivity.
  split; [rewrite Hc; now apply mathRound_range|].
  split; [rewrite Hc; now apply mathRound_range|].
  split; [rewrite Hc; now apply mathRound_range|].
  unfold getZColor. rewrite Hb. fold c. rewrite Hc. clear Hc.
  split.
  - intro E. assert (En : n == 0) by (unfold n; rewrite E; field; lra).
    rewrite (mathRound_integer (n * 255) 0) by (rewrite En; reflexivity).
    rewrite (mathRound_integer ((1 - n) * 255) 255) by (rewrite En; reflexivity).
    rewrite (mathRound_integer ((1 - Qabs (n - (1 # 2)) * 2) * 200) 0)
      by (rewrite En; reflexivity).
    reflexivity.
  - intro E. assert (En : n == 1) by (unfold n; rewrite E; field; lra).
    rewrite (mathRound_integer (n * 255) 255) by (rewrite En; reflexivity).
    rewrite (mathRound_integer ((1 - n) * 255) 0) by (rewrite En; reflexivity).
    rewrite (mathRound_integer ((1 - Qabs (n - (1 # 2)) * 2) * 200) 0)
      by (rewrite En; reflexivity).
    reflexivity.
Qed.

(* ------------------------------------------------------------------ *)
(** ** Instances of the further properties *)



Lemma inside_cell_witness :
  pt_x (p00 originCell) <= 25 /\ 25 <= pt_x (p10 originCell) /\
  pt_y (p00 originCell) <= 25 /\ 25 <= pt_y (p01 originCell).
Proof.
  apply (within_bounds_query_inside_cell 25 25 sampleMap originCell).
  - vm_compute. reflexivity.
  - reflexivity.
  - exists (mkPoint 0 0 0.1). split; [simpl; tauto | vm_compute; discriminate].
  - exists (mkPoint 100 0 0.15). split; [simpl; tauto | vm_compute; discriminate].
  - exists (mkPoint 0 0 0.1). split; [simpl; tauto | vm_compute; discriminate].
  - exists (mkPoint 0 100 0.1). split; [simpl; tauto | vm_compute; discriminate].
Defined.

Lemma line_of_samples_witness :
  let m := mkMap (mkBounds 0 20 0 0) (mkResolution 10 10)
             [mkPoint 0 0 1; mkPoint 10 0 2; mkPoint 20 0 3] in
  findSurroundingPoints 5 0 m = None /\
  bilinearInterpolate 5 0 m = None /\
  getZOffset 5 0 (Some m) = 0.
Proof.
  cbv zeta. apply line_of_samples_gives_no_offset.
  right. intros p q Hp Hq. simpl in Hp, Hq.
  destruct Hp as [<- | [<- | [<- | []]]], Hq as [<- | [<- | [<- | []]]]; reflexivity.
Defined.

Lemma last_column_witness :
  let ux := uniqueSorted (map pt_x (points wideMap)) in
  pt_x (p00 eastCell) == nth (List.length ux - 2) ux 0 /\
  pt_x (p10 eastCell) == nth (List.length ux - 1) ux 0.
Proof.
  apply (clamped_outside_samples_uses_last_column 150 25 wideMap eastCell).
  - vm_compute. reflexivity.
  - right. vm_compute. reflexivity.
Defined.

Lemma edge_column_witness :
  let ux := uniqueSorted (map pt_x (points sampleMap)) in
  (110 <= minX (bounds sampleMap) ->
   pt_x (p00 eastCell) == nth 0 ux 0 /\ pt_x (p10 eastCell) == nth 1 ux 0) /\
  (maxX (bounds sampleMap) <= 110 ->
   pt_x (p00 eastCell) == nth (List.length ux - 2) ux 0 /\
   pt_x (p10 eastCell) == nth (List.length ux - 1) ux 0).
Proof.
  apply (edge_query_uses_edge_column 110 50 sampleMap eastCell).
  - vm_compute. reflexivity.
  - vm_compute. reflexivity.
  - vm_compute. reflexivity.
Defined.


Lemma rows_join_witness :
  exists pts xs ys,
    calculateProbeGrid 0 10 0 10 5 false 0 0 = Some pts /\
    pts = List.concat (gridRows xs ys) /\
    forall i row next a,
      nth_error (gridRows xs ys) i = Some row ->
      nth_error (gridRows xs ys) (S i) = Some next ->
      nth_error row (List.length row - 1) = Some a ->
      exists b, nth_error next 0 = Some b /\ grid_x b = grid_x a.
Proof.
  pose proof (rows_join_at_same_x 0 10 0 10 5 false 0 0) as H.
  destruct (calculateProbeGrid 0 10 0 10 5 false 0 0) as [pts|] eqn:E;
    [|vm_compute in E; discriminate E].
  destruct (H pts eq_refl) as [xs [ys [H1 H2]]].
  exists pts, xs, ys. auto.
Defined.

Lemma near_rectangle_witness :
  exists pts,
    calculateProbeGrid 0 10 0 10 3 false 0 0 = Some pts /\
    forall pt, In pt pts ->
      0 - (1 # 2000) <= grid_x pt /\ grid_x pt <= 10 + (1 # 2000) /\
      0 - (1 # 2000) <= grid_y pt /\ grid_y pt <= 10 + (1 # 2000).
Proof.
  apply (grid_points_near_rectangle 0 10 0 10 3 false 0 0).
  - vm_compute. discriminate.
  - vm_compute. discriminate.
  - intros _. reflexivity.
Defined.

Lemma no_line_dropped_witness :
  exists r out,
    transformGcode "G1 X100 Y0 F500" sampleMap (mkOptions 50 true) = Some r
    /\ transformedGcode r = joinLines (headerLines sampleMap ++ out)
    /\ (List.length (splitLines "G1 X100 Y0 F500") <= List.length out)%nat.
Proof.
  apply (no_line_is_dropped "G1 X100 Y0 F500" sampleMap (mkOptions 50 true)).
  reflexivity.
Defined.

Lemma program_without_moves_witness :
  transformGcode "(setup)
M3 S1000
G2 X10 Y10 I5 J0
G1 F200" sampleMap defaultOptions
  = Some (mkResult (joinLines (headerLines sampleMap) ++ String newline "(setup)
M3 S1000
G2 X10 Y10 I5 J0
G1 F200") []).
Proof.
  apply program_without_moves_is_copied.
  intros l Hl. vm_compute in Hl.
  destruct Hl as [<- | [<- | [<- | [<- | []]]]]; vm_compute; reflexivity.
Defined.


Lemma negative_segment_length_witness :
  exists st',
    processLine sampleMap (mkOptions (-1) true) (initialState sampleMap) "G1 X10 Y0"
    = Some st'
    /\ transformedLines st' = headerLines sampleMap
    /\ currentX st' = 10.
Proof.
  destruct (negative_segment_length_drops_move sampleMap (mkOptions (-1) true)
              (initialState sampleMap) "G1 X10 Y0")
    as [st' [E [T [X _]]]].
  - reflexivity.
  - reflexivity.
  - reflexivity.
  - reflexivity.
  - exists st'. split; [exact E|]. split; [exact T|].
    rewrite X. vm_compute. reflexivity.
Defined.

Lemma validated_program_witness :
  exists r,
    transformGcode "G1 X10 Y10
G1 X90 Y90" sampleMap defaultOptions = Some r
    /\ resultWarnings r = [].
Proof.
  destruct (validated_program_raises_no_warning "G1 X10 Y10
G1 X90 Y90" sampleMap defaultOptions) as [W [r E]].
  - vm_compute. reflexivity.
  - reflexivity.
  - intro H. discriminate H.
  - exists r. split; [exact E | exact (W r E)].
Defined.


Lemma zero_map_witness :
  let m := mkMap (mkBounds 0 1 0 1) (mkResolution 1 1)
             [mkPoint 0 0 0; mkPoint 1 0 0; mkPoint 0 1 0; mkPoint 1 1 0] in
  getZOffset (1 # 2) 5 (Some m) == 0.
Proof.
  cbv zeta.
  refine (proj1 (zero_map_changes_no_height _ _) (1 # 2) 5).
  intros p Hp. simpl in Hp.
  destruct Hp as [<- | [<- | [<- | [<- | []]]]]; reflexivity.
Defined.

Lemma border_value_witness :
  exists z,
    bilinearInterpolate 50 25 sampleMap = Some z
    /\ (50 == 50 -> z == 0.2 * (1 - yWeightAt originCell 25)
                         + 0.25 * yWeightAt originCell 25).
Proof.
  destruct (border_value_from_border_samples 50 25 sampleMap originCell)
    as [z [E [_ [H _]]]].
  - vm_compute. reflexivity.
  - exists z. split; [exact E | exact H].
Defined.

Lemma no_warning_witness :
  exists r,
    transformGcode "G1 X500 Y500" sampleMap (mkOptions 1000 false) = Some r
    /\ resultWarnings r = [].
Proof.
  destruct (no_warning_when_switched_off "G1 X500 Y500" sampleMap
              (mkOptions 1000 false)) as [W [r E]].
  - reflexivity.
  - intro H. discriminate H.
  - exists r. split; [exact E | exact (W r E)].
Defined.

Lemma four_points_witness :
  exists pts,
    calculateProbeGrid 0 10 0 10 7 false 0 0 = Some pts
    /\ (4 <= List.length pts)%nat.
Proof.
  apply (proper_grid_has_four_points 0 10 0 10 7 false 0 0).
  - intro H. discriminate H.
  - intros _. repeat split.
Defined.

Lemma single_column_witness :
  exists pts,
    calculateProbeGrid 0 10 0 30 5 true 1 4 = Some pts
    /\ (4 <= List.length pts)%nat
    /\ forall pt, In pt pts -> grid_x pt = roundTo 3 0.
Proof.
  apply (single_column_passes_point_guard 0 10 0 30 5 4). lia.
Defined.

Lemma valid_colours_witness :
  let minZ := fst (zScale (Some sampleMap)) in
  let maxZ := snd (zScale (Some sampleMap)) in
  let c := zColorChannels minZ maxZ 0.3 in
  minZ <= 0.3 /\ 0.3 <= maxZ
  /\ (~ maxZ == minZ ->
      (0 <= red c <= 255)%Z /\ (0 <= green c <= 200)%Z /\ (0 <= blue c <= 255)%Z
      /\ (0.3 == minZ -> getZColor minZ maxZ 0.3 = "rgb(0, 0, 255)"%string)
      /\ (0.3 == maxZ -> getZColor minZ maxZ 0.3 = "rgb(255, 0, 0)"%string)).
Proof.
  apply (stored_heights_get_valid_colours sampleMap (mkPoint 100 50 0.3)).
  simpl. tauto.
Defined.
